(** * bevy_mod_config: the config tree engine, its serde backend, its
    change detection, the egui traversal and the root registry. *)

From Stdlib Require Import String Ascii List ZArith Bool Lia.
From Stdlib Require Import Sorting.Permutation Sorting.Sorted FunctionalExtensionality.
Import ListNotations.
Local Open Scope list_scope.
Set Warnings "-register-all".

(* ================================================================== *)
(** ** Scalar types and values *)

(** Scalar types that own a [ScalarData<T>] component.  [TyWrapper d ns] is
    [EnumDiscriminantWrapper<D>] for the discriminant type [D] named [d]
    whose variants are [ns]; [TyDiscrim d ns] is the bare discriminant type
    [D] itself (it is requested by the generated enum [changed], see
    [gen_changed_fn_enum]). *)
Inductive scalar_ty :=
| TyI32
| TyF32
| TyString
| TyWrapper (d : string) (ns : list string)
| TyDiscrim (d : string) (ns : list string).

Definition scalar_ty_eq_dec (a b : scalar_ty) : {a = b} + {a <> b}.
Proof. decide equality; first [apply string_dec | apply list_eq_dec; apply string_dec]. Defined.

Definition scalar_ty_eqb (a b : scalar_ty) : bool :=
  if scalar_ty_eq_dec a b then true else false.

(** The payload of a [ScalarData<T>].  An [f32] is carried by the decimal
    text that [serde_json] (ryu) writes for it, e.g. ["0.0"]; no float
    arithmetic is involved anywhere in the code under study. *)
Inductive value :=
| VI32 (z : Z)
| VF32 (text : string)
| VString (s : string)
| VDiscrim (variant : string).

(* ================================================================== *)
(** ** Schema (the output of [#[derive(Config)]]) *)

(** A field type: a scalar with its metadata default, a struct (fields with
    their hierarchy key) or an enum (discriminant type name and variants
    with their fields). *)
Inductive field_ty :=
| FScalar (t : scalar_ty) (default : value)
| FStruct (fields : list (string * field_ty))
| FEnum (d : string) (variants : list (string * list (string * field_ty))).

(** Names of the variants of an enum, in declaration order. *)
Definition variant_names (vs : list (string * list (string * field_ty))) : list string :=
  map fst vs.

(* ================================================================== *)
(** ** The node store (a bevy [World] restricted to config entities) *)

(** [ConditionalRelevance] as generated by the derive macro: dependency
    entity and the variant the discriminant must equal. *)
Record relevance := { dependency : nat; rel_variant : string }.

(** One config entity: [ConfigNode { path, generation }], [ChildNodeOf],
    [ConditionalRelevance] and the optional [ScalarData<T>]. *)
Record node := {
  path : list string;
  generation : Z;
  parent : option nat;
  dep : option relevance;
  scalar : option (scalar_ty * value)
}.

(** Entities are numbered in spawn order. *)
Definition world := list node.

(** [SpawnContext { path, parent, dependency }]. *)
Record spawn_ctx := { ctx_path : list string; ctx_parent : option nat; ctx_dep : option relevance }.

(** [SpawnContext::join]: appends the key segments and always drops the
    dependency. *)
Definition join (c : spawn_ctx) (key : list string) (par : option nat) : spawn_ctx :=
  {| ctx_path := ctx_path c ++ key; ctx_parent := par; ctx_dep := None |}.

(** [SpawnContext::with_dependency]. *)
Definition with_dependency (c : spawn_ctx) (de : nat) (variant : string) : spawn_ctx :=
  {| ctx_path := ctx_path c; ctx_parent := ctx_parent c;
     ctx_dep := Some {| dependency := de; rel_variant := variant |} |}.

(** [FieldGeneration::default()] is 1. *)
Definition generation_default : Z := 1.

(** [FieldGeneration::next]: [checked_add(1)] on a [NonZeroU64], panicking
    ([None]) on overflow. *)
Definition generation_next (g : Z) : option Z :=
  if (g + 1 <? 2 ^ 64)%Z then Some (g + 1)%Z else None.

(** [world.spawn(..)] followed by [init_config_node]: appends one entity. *)
Definition spawn_entity (w : world) (c : spawn_ctx) (sd : option (scalar_ty * value))
  : world * nat :=
  (w ++ [{| path := ctx_path c; generation := generation_default;
            parent := ctx_parent c; dep := ctx_dep c; scalar := sd |}], length w).

(** The spawn handles the derive macro generates: a scalar [Entity], a
    struct handle [{ node, field_* }] and an enum handle
    [{ node, discrim, variant_*_field_* }] (grouped per variant here). *)
Inductive handle :=
| HScalar (e : nat)
| HStruct (nd : nat) (fields : list handle)
| HEnum (nd : nat) (discrim : nat) (variants : list (string * list handle)).

(** The [Serde] manager's per-type registry [types]: the scalar types in
    the order they were first seen ([entry(..).or_insert_with]). *)
Definition registry := list scalar_ty.

Definition register (r : registry) (t : scalar_ty) : registry :=
  if existsb (scalar_ty_eqb t) r then r else r ++ [t].

(** [ConfigFieldFor::spawn_world] for every field type: the scalar case of
    [impl_scalar_config_field!] and of the discriminant, and the
    composite case of [gen_spawn_world].  The [Serde] manager's
    [new_entity_for_type] runs before the entity is spawned. *)
Fixpoint spawn_world (r : registry) (w : world) (c : spawn_ctx) (f : field_ty)
  : registry * world * handle :=
  match f with
  | FScalar t d =>
      let r := register r t in
      let '(w, e) := spawn_entity w c (Some (t, d)) in (r, w, HScalar e)
  | FStruct fs =>
      let '(w, nd) := spawn_entity w c None in
      let fix go r w fs :=
        match fs with
        | [] => (r, w, [])
        | (k, ft) :: fs' =>
            let '(r, w, h) := spawn_world r w (join c [k] (Some nd)) ft in
            let '(r, w, hs) := go r w fs' in (r, w, h :: hs)
        end in
      let '(r, w, hs) := go r w fs in (r, w, HStruct nd hs)
  | FEnum dn vs =>
      let '(w, nd) := spawn_entity w c None in
      let ns := variant_names vs in
      let dflt := match ns with [] => VDiscrim EmptyString | n :: _ => VDiscrim n end in
      let r := register r (TyWrapper dn ns) in
      let '(w, de) := spawn_entity w (join c ["discrim"%string] (Some nd))
                        (Some (TyWrapper dn ns, dflt)) in
      let fix go_fields r w vn fs :=
        match fs with
        | [] => (r, w, [])
        | (k, ft) :: fs' =>
            let '(r, w, h) :=
              spawn_world r w (with_dependency (join c [vn; k] (Some nd)) de vn) ft in
            let '(r, w, hs) := go_fields r w vn fs' in (r, w, h :: hs)
        end in
      let fix go_variants r w vs :=
        match vs with
        | [] => (r, w, [])
        | (vn, fs) :: vs' =>
            let '(r, w, hs) := go_fields r w vn fs in
            let '(r, w, hvs) := go_variants r w vs' in (r, w, (vn, hs) :: hvs)
        end in
      let '(r, w, hvs) := go_variants r w vs in (r, w, HEnum nd de hvs)
  end.

(* ================================================================== *)
(** ** The example schema of the spec and of [tests/dump_load_json.rs] *)

Definition f32_field : field_ty := FScalar TyF32 (VF32 "0.0").

(** [struct Rgba(f32, f32, f32, f32)] *)
Definition Rgba : field_ty :=
  FStruct [("0", f32_field); ("1", f32_field); ("2", f32_field); ("3", f32_field)]%string.

(** [enum Color { White, Rgb(f32, f32, f32), Rgba(Rgba), Named { code: String } }] *)
Definition Color : field_ty :=
  FEnum "ColorDiscrim"
    [("White", []);
     ("Rgb", [("0", f32_field); ("1", f32_field); ("2", f32_field)]);
     ("Rgba", [("0", Rgba)]);
     ("Named", [("code", FScalar TyString (VString ""))])]%string.

(** [struct Settings { #[config(default = 3)] thickness: i32, color: Color }] *)
Definition Settings : field_ty :=
  FStruct [("thickness", FScalar TyI32 (VI32 3)); ("color", Color)]%string.

(** The root context built by [init_config_with] for key [key]. *)
Definition root_ctx (key : string) : spawn_ctx :=
  {| ctx_path := [key]; ctx_parent := None; ctx_dep := None |}.

Definition example_spawn : registry * world * handle :=
  spawn_world [] [] (root_ctx "ui") Settings.

(* ================================================================== *)
(** ** Strings: [join("."), split('.')], decimal and JSON text *)

Local Open Scope string_scope.

(** [<[String]>::join(sep)]. *)
Fixpoint join_str (sep : string) (ps : list string) : string :=
  match ps with
  | [] => ""
  | [p] => p
  | p :: ps' => p ++ sep ++ join_str sep ps'
  end.

(** [str::split(c)] collected into a [Vec<String>]: always at least one
    piece. *)
Fixpoint split_char (c : ascii) (s : string) : list string :=
  match s with
  | EmptyString => [""]
  | String a s' =>
      if Ascii.eqb a c then "" :: split_char c s'
      else match split_char c s' with
           | [] => [String a ""]
           | p :: ps => String a p :: ps
           end
  end.

Definition dot : ascii := "."%char.

(** Decimal digits of a natural number ([Display] for integers). *)
Fixpoint digits_of_nat (fuel n : nat) (acc : string) : string :=
  match fuel with
  | O => acc
  | S fuel' =>
      let d := Nat.modulo n 10 in
      let acc := String (ascii_of_nat (48 + d)) acc in
      if Nat.ltb n 10 then acc else digits_of_nat fuel' (Nat.div n 10) acc
  end.

Definition string_of_Z (z : Z) : string :=
  match z with
  | Z0 => "0"
  | Zpos p => digits_of_nat (S (Pos.to_nat p)) (Pos.to_nat p) ""
  | Zneg p => "-" ++ digits_of_nat (S (Pos.to_nat p)) (Pos.to_nat p) ""
  end.

Definition hex_digit (n : nat) : ascii :=
  if Nat.ltb n 10 then ascii_of_nat (48 + n) else ascii_of_nat (87 + n).

(** [serde_json]'s string escaping ([format_escaped_str_contents]). *)
Fixpoint json_escape (s : string) : string :=
  match s with
  | EmptyString => ""
  | String a s' =>
      let n := nat_of_ascii a in
      let esc :=
        if Nat.eqb n 34 then "\" ++ String a ""
        else if Nat.eqb n 92 then "\\"
        else if Nat.eqb n 8 then "\b"
        else if Nat.eqb n 12 then "\f"
        else if Nat.eqb n 10 then "\n"
        else if Nat.eqb n 13 then "\r"
        else if Nat.eqb n 9 then "\t"
        else if Nat.ltb n 32 then
          "\u00" ++ String (hex_digit (Nat.div n 16)) (String (hex_digit (Nat.modulo n 16)) "")
        else String a "" in
      esc ++ json_escape s'
  end.

Definition quote : string := String (ascii_of_nat 34) "".

Definition json_string (s : string) : string := quote ++ json_escape s ++ quote.

(** The [f32] values serde_json cannot write as a number: NaN and the
    infinities, held as the texts [f32]'s [Display] gives them. *)
Definition f32_non_finite (t : string) : bool :=
  String.eqb t "NaN" || String.eqb t "inf" || String.eqb t "-inf".

(** [SerdeScalar::as_serialize] of each scalar written by [serde_json]: the
    number ([null] for a non-finite [f32]), the string, or the
    discriminant's [name()] as a string. *)
Definition json_value (v : value) : string :=
  match v with
  | VI32 z => string_of_Z z
  | VF32 t => if f32_non_finite t then "null" else t
  | VString s => json_string s
  | VDiscrim n => json_string n
  end.

Local Close Scope string_scope.

(* ================================================================== *)
(** ** [Serde::serialize_all] *)

(** [Ord for String] (byte order) and [Ord for Vec<String>] (lexicographic,
    a proper prefix first). *)
Fixpoint lex_cmp {A} (cmp : A -> A -> comparison) (l1 l2 : list A) : comparison :=
  match l1, l2 with
  | [], [] => Eq
  | [], _ :: _ => Lt
  | _ :: _, [] => Gt
  | x :: l1', y :: l2' =>
      match cmp x y with
      | Eq => lex_cmp cmp l1' l2'
      | c => c
      end
  end.

Definition path_cmp (p1 p2 : list string) : comparison := lex_cmp String.compare p1 p2.

(** A scanned key with the registry entry it came from:
    [((Vec<String>, Entity), &Typed)]. *)
Definition scanned := (list string * nat * scalar_ty)%type.

(** [scan_keys] of the entry for [t]: every entity with a [ScalarData<T>],
    in the query's iteration order (entity order here). *)
Fixpoint scan_from (t : scalar_ty) (i : nat) (ns : list node) : list (list string * nat) :=
  match ns with
  | [] => []
  | n :: ns' =>
      match scalar n with
      | Some (t', _) =>
          if scalar_ty_eqb t t' then (path n, i) :: scan_from t (S i) ns' else scan_from t (S i) ns'
      | None => scan_from t (S i) ns'
      end
  end.

Definition scan_keys (w : world) (t : scalar_ty) : list (list string * nat) := scan_from t 0 w.

(** [Serde::keys_with_types]: the registry's entries in its iteration order
    [types] (a [HashMap], so any order), each scanned in turn. *)
Definition keys_with_types (w : world) (types : list scalar_ty) : list scanned :=
  flat_map (fun t => map (fun '(p, e) => (p, e, t)) (scan_keys w t)) types.

(** [slice::sort_by] is a stable sort; insertion sort is one. *)
Fixpoint insert_by {A} (le : A -> A -> bool) (x : A) (l : list A) : list A :=
  match l with
  | [] => [x]
  | y :: l' => if le y x then y :: insert_by le x l' else x :: y :: l'
  end.

Fixpoint sort_by {A} (le : A -> A -> bool) (l : list A) : list A :=
  match l with
  | [] => []
  | x :: l' => insert_by le x (sort_by le l')
  end.

(** The comparator [path1.cmp(path2)]: [y] stays before [x] unless [x] is
    strictly smaller. *)
Definition scanned_le (a b : scanned) : bool :=
  match path_cmp (fst (fst a)) (fst (fst b)) with Gt => false | _ => true end.

Definition nth_node (w : world) (e : nat) : option node := nth_error w e.

(** The vtable's [ser]: [ser.serialize_entry(&path.join("."), value)]
    with [serde_json]'s compact map entry [key:value].  [None] is the
    [expect] on a missing [ScalarData<T>]. *)
Definition serialize_once (w : world) (k : scanned) : option string :=
  let '(p, e, t) := k in
  match nth_node w e with
  | Some n =>
      match scalar n with
      | Some (t', v) =>
          if scalar_ty_eqb t t' then Some (json_string (join_str "." p) ++ ":" ++ json_value v)%string
          else None
      | None => None
      end
  | None => None
  end.

Fixpoint all_some {A} (l : list (option A)) : option (list A) :=
  match l with
  | [] => Some []
  | None :: _ => None
  | Some x :: l' => match all_some l' with Some xs => Some (x :: xs) | None => None end
  end.

(** The entries [serialize_all] writes, in order. *)
Definition serialize_entries (w : world) (types : list scalar_ty) : list scanned :=
  sort_by scanned_le (keys_with_types w types).

(** [Serde::serialize_all] through [Json::to_string] (compact formatter). *)
Definition serialize_all (w : world) (types : list scalar_ty) : option string :=
  match all_some (map (serialize_once w) (serialize_entries w types)) with
  | Some es => Some ("{" ++ join_str "," es ++ "}")%string
  | None => None
  end.

(* ================================================================== *)
(** ** [Serde::deserialize] through [serde_json] *)

(** The JSON text after whitespace is skipped, as the tokens
    [serde_json::Deserializer] peeks at.  A number keeps its text. *)
Inductive token :=
| TLBrace | TRBrace | TColon | TComma
| TStr (s : string)
| TNum (text : string)
| TNull.

Inductive json_error :=
| ExpectedSomeValue           (* a value was expected *)
| ExpectedColon
| ExpectedObjectCommaOrEnd
| KeyMustBeAString
| TrailingComma
| TrailingCharacters
| EofWhileParsingObject
| EofWhileParsingValue
| InvalidType                 (* the value has the wrong JSON type *)
| UnknownVariant (s : string)  (* [unknown enum variant: ..] *)
| NumberOutOfRange.

(** A JSON scalar as captured by [Box<RawValue>]. *)
Inductive raw := RStr (s : string) | RNum (text : string) | RNull.

(** [MapAccess::next_key::<String>] of [serde_json] ([has_next_key], then the
    key string); [first] is [MapAccess.first]. *)
Definition next_key (first : bool) (ts : list token)
  : json_error + option (string * list token) :=
  match ts with
  | [] => inl EofWhileParsingObject
  | TRBrace :: _ => inr None
  | t :: ts' =>
      if first then
        match t with
        | TStr k => inr (Some (k, ts'))
        | _ => inl KeyMustBeAString
        end
      else
        match t with
        | TComma =>
            match ts' with
            | TStr k :: ts'' => inr (Some (k, ts''))
            | TRBrace :: _ => inl TrailingComma
            | _ :: _ => inl KeyMustBeAString
            | [] => inl EofWhileParsingValue
            end
        | _ => inl ExpectedObjectCommaOrEnd
        end
  end.

(** [MapAccess::next_value::<Box<RawValue>>]: [parse_object_colon], then one
    value. *)
Definition next_value (ts : list token) : json_error + (raw * list token) :=
  match ts with
  | [] => inl EofWhileParsingObject
  | TColon :: ts' =>
      match ts' with
      | TStr s :: ts'' => inr (RStr s, ts'')
      | TNum n :: ts'' => inr (RNum n, ts'')
      | TNull :: ts'' => inr (RNull, ts'')
      | [] => inl EofWhileParsingValue
      | _ :: _ => inl ExpectedSomeValue
      end
  | _ :: _ => inl ExpectedColon
  end.

(** Decimal text of a JSON integer (optional minus, digits). *)
Fixpoint parse_digits (s : string) (acc : Z) : option Z :=
  match s with
  | EmptyString => Some acc
  | String a s' =>
      let n := nat_of_ascii a in
      if andb (Nat.leb 48 n) (Nat.leb n 57)
      then parse_digits s' (acc * 10 + Z.of_nat (n - 48))%Z else None
  end.

Definition parse_int (s : string) : option Z :=
  match s with
  | String a s' =>
      if Ascii.eqb a "-"%char
      then match s' with EmptyString => None | _ => option_map Z.opp (parse_digits s' 0) end
      else parse_digits s 0
  | EmptyString => None
  end.

(** [EnumDiscriminant::from_name]. *)
Definition from_name (ns : list string) (s : string) : option string :=
  if existsb (String.eqb s) ns then Some s else None.

(** [serde_json::from_str::<T::Deserialize>(value.get())] for each scalar
    type.  An [f32] keeps the text of its number token: the rounding of
    serde_json's parse to [f32] and its out-of-range error for a too large
    exponent are not modelled.  [null] (what serde_json writes for a
    non-finite [f32]) is an invalid type for every scalar type. *)
Definition decode (t : scalar_ty) (r : raw) : json_error + value :=
  match t, r with
  | TyI32, RNum n =>
      match parse_int n with
      | Some z => if andb (-(2 ^ 31) <=? z)%Z (z <? 2 ^ 31)%Z then inr (VI32 z) else inl NumberOutOfRange
      | None => inl InvalidType
      end
  | TyF32, RNum n => inr (VF32 n)
  | TyString, RStr s => inr (VString s)
  | TyWrapper _ ns, RStr s =>
      match from_name ns s with Some v => inr (VDiscrim v) | None => inl (UnknownVariant s) end
  | TyDiscrim _ ns, RStr s =>
      match from_name ns s with Some v => inr (VDiscrim v) | None => inl (UnknownVariant s) end
  | _, _ => inl InvalidType
  end.

(** Replaces the [ScalarData] payload of entity [e] ([set_deserialized]);
    every other component, [ConfigNode.generation] included, is kept. *)
Fixpoint set_scalar_from (i e : nat) (v : value) (ns : list node) : list node :=
  match ns with
  | [] => []
  | n :: ns' =>
      if Nat.eqb i e then
        {| path := path n; generation := generation n; parent := parent n; dep := dep n;
           scalar := match scalar n with Some (t, _) => Some (t, v) | None => None end |} :: ns'
      else n :: set_scalar_from (S i) e v ns'
  end.

Definition set_scalar_value (w : world) (e : nat) (v : value) : world := set_scalar_from 0 e v w.

(** The [HashMap<Vec<String>, (Entity, &Typed)>] built by [deserialize]:
    [collect] keeps the last entry of a repeated path. *)
Definition key_index := list (list string * (nat * scalar_ty)).

Definition build_index (ks : list scanned) : key_index :=
  map (fun '(p, e, t) => (p, (e, t))) ks.

Definition index_lookup (idx : key_index) (p : list string) : option (nat * scalar_ty) :=
  match find (fun '(p', _) => if list_eq_dec string_dec p p' then true else false) (rev idx) with
  | Some (_, v) => Some v
  | None => None
  end.

(** [JsonAdapter::index_map_by_de_key]: split the key at ['.']. *)
Definition index_map_by_de_key (idx : key_index) (k : string) : option (nat * scalar_ty) :=
  index_lookup idx (split_char dot k).

(** [TypedAdapter::deserialize_map_value] of the JSON vtable: read the raw
    value, decode it, write it. *)
Definition deserialize_map_value (w : world) (e : nat) (t : scalar_ty) (ts : list token)
  : world * (json_error + list token) :=
  match next_value ts with
  | inl err => (w, inl err)
  | inr (r, ts') =>
      match decode t r with
      | inl err => (w, inl err)
      | inr v => (set_scalar_value w e v, inr ts')
      end
  end.

(** [Visitor::visit_map]: [while let Some(key) = map.next_key()?], applying
    the value when the key is indexed.  [fuel] bounds the loop (each turn
    consumes at least one token, so [length ts] turns suffice). *)
Fixpoint visit_map (fuel : nat) (idx : key_index) (first : bool) (w : world) (ts : list token)
  : world * (json_error + list token) :=
  match fuel with
  | O => (w, inr ts)
  | S fuel' =>
      match next_key first ts with
      | inl err => (w, inl err)
      | inr None => (w, inr ts)
      | inr (Some (k, ts')) =>
          match index_map_by_de_key idx k with
          | Some (e, t) =>
              match deserialize_map_value w e t ts' with
              | (w', inl err) => (w', inl err)
              | (w', inr ts'') => visit_map fuel' idx false w' ts''
              end
          | None => visit_map fuel' idx false w ts'
          end
      end
  end.

(** [serde_json]'s [end_map] after the visitor returns. *)
Definition end_map (ts : list token) : json_error + unit :=
  match ts with
  | TRBrace :: _ => inr tt
  | TComma :: _ => inl TrailingComma
  | _ :: _ => inl TrailingCharacters
  | [] => inl EofWhileParsingObject
  end.

(** [Serde::deserialize] with [JsonAdapter] ([deserialize_map] of
    [serde_json]): the new world and the result. *)
Definition deserialize (w : world) (types : list scalar_ty) (ts : list token)
  : world * (json_error + unit) :=
  let idx := build_index (keys_with_types w types) in
  match ts with
  | TLBrace :: ts' =>
      match visit_map (length ts') idx true w ts' with
      | (w', inl err) => (w', inl err)
      | (w', inr rest) => (w', end_map rest)
      end
  | _ :: _ => (w, inl InvalidType)
  | [] => (w, inl EofWhileParsingValue)
  end.

(* ================================================================== *)
(** ** Change detection: [ConfigField::changed] *)

(** The [Changed] witnesses: [FieldGeneration] for a scalar, the generated
    struct of field witnesses, and the generated enum with one case per
    variant holding that variant's field witnesses.  Equality is the
    derived [PartialEq]. *)
Inductive witness :=
| WGen (g : Z)
| WStruct (fs : list witness)
| WVariant (v : string) (fs : list witness).

(** [ChangedQueryData] as the list of the non-optional components it asks
    for: [()] for a scalar, the tuple of the fields' for a struct, and
    [(&ScalarData<Discrim>, fields..)] for an enum ([gen_changed_fn_enum]). *)
Fixpoint changed_query_data (f : field_ty) : list scalar_ty :=
  match f with
  | FScalar _ _ => []
  | FStruct fs =>
      let fix go fs := match fs with [] => [] | (_, ft) :: fs' => changed_query_data ft ++ go fs' end in
      go fs
  | FEnum dn vs =>
      let fix go_fields fs :=
        match fs with [] => [] | (_, ft) :: fs' => changed_query_data ft ++ go_fields fs' end in
      let fix go_variants vs :=
        match vs with [] => [] | (_, fs) :: vs' => go_fields fs ++ go_variants vs' end in
      TyDiscrim dn (variant_names vs) :: go_variants vs
  end.

(** [QueryLike::get] on [Query<(&ConfigNode, C::ChangedQueryData)>] (and on
    any [map] of it, which only projects the item): the entity must own
    every requested [ScalarData<T>]. *)
Definition query_get (req : list scalar_ty) (w : world) (e : nat) : option node :=
  match nth_node w e with
  | Some n =>
      if forallb (fun t => match scalar n with
                           | Some (t', _) => scalar_ty_eqb t t'
                           | None => false
                           end) req
      then Some n else None
  | None => None
  end.

(** [ConfigField::changed] for every field type, [None] being the [expect]
    panic.  A scalar returns [entity.0.generation]; a struct the fields'
    witnesses; an enum reads the discriminant through the query
    ([.1.0.0]) and returns the active variant's case. *)
Fixpoint changed (req : list scalar_ty) (w : world) (h : handle) : option witness :=
  match h with
  | HScalar e =>
      match query_get req w e with
      | Some n => Some (WGen (generation n))
      | None => None
      end
  | HStruct _ hs =>
      let fix go hs :=
        match hs with
        | [] => Some []
        | h :: hs' =>
            match changed req w h, go hs' with
            | Some c, Some cs => Some (c :: cs)
            | _, _ => None
            end
        end in
      match go hs with Some cs => Some (WStruct cs) | None => None end
  | HEnum _ de hvs =>
      match query_get req w de with
      | Some n =>
          match scalar n with
          | Some (_, VDiscrim v) =>
              let fix go hs :=
                match hs with
                | [] => Some []
                | h :: hs' =>
                    match changed req w h, go hs' with
                    | Some c, Some cs => Some (c :: cs)
                    | _, _ => None
                    end
                end in
              let fix pick hvs :=
                match hvs with
                | [] => None
                | (vn, hs) :: hvs' =>
                    if String.eqb vn v
                    then match go hs with Some cs => Some (WVariant vn cs) | None => None end
                    else pick hvs'
                end in
              pick hvs
          | _ => None
          end
      | None => None
      end
  end.

(** The derived [PartialEq] of the witnesses. *)
Fixpoint witness_eqb (a b : witness) : bool :=
  let fix list_eqb (l1 l2 : list witness) :=
    match l1, l2 with
    | [], [] => true
    | x :: l1', y :: l2' => witness_eqb x y && list_eqb l1' l2'
    | _, _ => false
    end in
  match a, b with
  | WGen g, WGen g' => Z.eqb g g'
  | WStruct fs, WStruct fs' => list_eqb fs fs'
  | WVariant v fs, WVariant v' fs' => String.eqb v v' && list_eqb fs fs'
  | _, _ => false
  end.

(** [ReadConfig::changed] for a root of field type [f]. *)
Definition read_config_changed (f : field_ty) (w : world) (h : handle) : option witness :=
  changed (changed_query_data f) w h.

(** [ReadConfigChange::consume_change] with its [Local] state [last]: the
    answer and the new state, [None] if [changed] panics. *)
Definition consume_change (f : field_ty) (w : world) (h : handle) (last : option witness)
  : option (bool * option witness) :=
  match read_config_changed f w h with
  | None => None
  | Some c =>
      match last with
      | None => Some (true, Some c)
      | Some v => if witness_eqb v c then Some (false, last) else Some (true, Some c)
      end
  end.

(* ================================================================== *)
(** ** The root registry: [AppExt::init_config_with] *)

Module Registry.

(** The app resources [init_config_with] consults: [ManagerType { id,
    root_keys }] (absent before the first call) and the [RootField<C>]
    resources present, by type.  Types are named by their [TypeId]. *)
Record app := {
  manager_type : option string;
  root_keys : list string;
  root_fields : list string
}.

Definition empty_app : app := {| manager_type := None; root_keys := []; root_fields := [] |}.

(** [HashSet::replace]: inserts the key, returning the previous equal key. *)
Definition replace_key (ks : list string) (k : string) : list string * option string :=
  if existsb (String.eqb k) ks then (ks, Some k) else (k :: ks, None).

(** [init_config_with::<M, C>(key, init)]; [None] is a panic.  The three
    checks run in the source order: the manager type, the key, then the
    root type; the spawn itself cannot fail. *)
Definition init_config_with (m c key : string) (a : app) : option app :=
  let mgr_ok :=
    match manager_type a with
    | Some id => String.eqb id m
    | None => true
    end in
  if negb mgr_ok then None
  else
    let mt := match manager_type a with Some id => Some id | None => Some m end in
    let '(ks, existed) := replace_key (root_keys a) key in
    match existed with
    | Some _ => None
    | None =>
        if existsb (String.eqb c) (root_fields a) then None
        else Some {| manager_type := mt; root_keys := ks; root_fields := c :: root_fields a |}
    end.

(** A sequence of registrations [(M, C, key)] from a fresh app. *)
Fixpoint run_from (a : app) (calls : list (string * string * string)) : option app :=
  match calls with
  | [] => Some a
  | (m, c, k) :: calls' =>
      match init_config_with m c k a with
      | Some a' => run_from a' calls'
      | None => None
      end
  end.

Definition run (calls : list (string * string * string)) : option app := run_from empty_app calls.

End Registry.

(** What the app resources record after a run of registrations. *)
Definition registered (calls : list (string * string * string)) (a : Registry.app) : Prop :=
  (calls = [] -> Registry.manager_type a = None)
  /\ (forall m c k, In (m, c, k) calls -> Registry.manager_type a = Some m)
  /\ (forall x, In x (Registry.root_keys a) <-> In x (map snd calls))
  /\ (forall x, In x (Registry.root_fields a) <-> In x (map (fun x => snd (fst x)) calls)).

(** Registrations that agree on the manager type and repeat neither a
    key nor a root type. *)
Definition consistent_calls (calls : list (string * string * string)) : Prop :=
  (forall m c k m' c' k', In (m, c, k) calls -> In (m', c', k') calls -> m = m')
  /\ NoDup (map snd calls) /\ NoDup (map (fun x => snd (fst x)) calls).

(* ================================================================== *)
(** ** The egui editor traversal: [Display::show] and [show_node] *)

Module Editor.

(** A config entity as [show_node] sees it: its id, its
    [ConditionalRelevance] (dependency entity and [is_entity_relevant]
    applied to that entity's value), whether it has a [ScalarDraw], and its
    [ChildNodeList] in order.  The [ChildNodeOf] links of a store form a
    forest (every parent exists before its child), written out here. *)
Inductive enode :=
| ENode (id : nat) (rel : option (nat * (value -> bool))) (drawable : bool) (kids : list enode).

Definition enode_id (n : enode) : nat := match n with ENode i _ _ _ => i end.

(** The scalar values [is_entity_relevant] reads, by entity. *)
Definition values := nat -> value.

Definition upd (vs : values) (e : nat) (v : value) : values :=
  fun e' => if Nat.eqb e e' then v else vs e'.

Section Traversal.

(** The effect of a [draw_fn] on its entity's value (the user's input in
    this frame), and whether egui currently shows the body of the
    collapsing header of a composite node ([ui.collapsing]). *)
Variable edit : nat -> value -> value.
Variable is_open : nat -> bool.

(** [show_node]: skip the node if its dependency is irrelevant, else draw a
    scalar or walk the children inside [ui.collapsing].  Returns the new
    values and the entities whose [draw_fn] ran, in order. *)
Fixpoint show_node (vs : values) (n : enode) : values * list nat :=
  match n with
  | ENode i rel drawable kids =>
      let relevant := match rel with Some (d, p) => p (vs d) | None => true end in
      if negb relevant then (vs, [])
      else if drawable then (upd vs i (edit i (vs i)), [i])
      else if is_open i then
        let fix go vs ks :=
          match ks with
          | [] => (vs, [])
          | k :: ks' =>
              let '(vs, t1) := show_node vs k in
              let '(vs, t2) := go vs ks' in (vs, t1 ++ t2)
          end in
        go vs kids
      else (vs, [])
  end.

(** [Display::show_with_style]: [show_node] on every root in turn. *)
Fixpoint show_roots (vs : values) (roots : list enode) : values * list nat :=
  match roots with
  | [] => (vs, [])
  | r :: rs =>
      let '(vs, t1) := show_node vs r in
      let '(vs, t2) := show_roots vs rs in (vs, t1 ++ t2)
  end.

End Traversal.

End Editor.

(* ================================================================== *)
(** ** Mutations and the example instances *)

(** An edit of scalar entity [e] the way the egui [draw_fn] does it:
    write the new value, then [node.generation = node.generation.next()]. *)
Fixpoint mutate_from (i e : nat) (v : value) (ns : list node) : option (list node) :=
  match ns with
  | [] => Some []
  | n :: ns' =>
      if Nat.eqb i e then
        match generation_next (generation n) with
        | Some g =>
            Some ({| path := path n; generation := g; parent := parent n; dep := dep n;
                     scalar := match scalar n with Some (t, _) => Some (t, v) | None => None end |}
                  :: ns')
        | None => None
        end
      else match mutate_from (S i) e v ns' with Some ns'' => Some (n :: ns'') | None => None end
  end.

Definition mutate (w : world) (e : nat) (v : value) : option world := mutate_from 0 e v w.

Definition example_types : registry := fst (fst example_spawn).
Definition example_world : world := snd (fst example_spawn).
Definition example_handle : handle := snd example_spawn.

(** The [thickness] node of [example_world], as spawned. *)
Definition thickness_node : node :=
  {| path := ["ui"; "thickness"]%string; generation := 1; parent := Some 0;
     dep := None; scalar := Some (TyI32, VI32 3) |}.

(** A JSON object [{k1:v1,k2:v2,..}] as tokens. *)
Definition raw_token (r : raw) : token :=
  match r with RStr s => TStr s | RNum t => TNum t | RNull => TNull end.

Fixpoint object_body (first : bool) (es : list (string * raw)) : list token :=
  match es with
  | [] => [TRBrace]
  | (k, v) :: es' =>
      (if first then [] else [TComma]) ++ [TStr k; TColon; raw_token v] ++ object_body false es'
  end.

Definition json_object (es : list (string * raw)) : list token := TLBrace :: object_body true es.

(** The flat map the spec (section 6) and [dump_json] expect. *)
Definition spec_entries : list (string * string) :=
  [("ui.color.Named:code", quote ++ quote);
   ("ui.color.Rgb:0", "0.0"); ("ui.color.Rgb:1", "0.0"); ("ui.color.Rgb:2", "0.0");
   ("ui.color.Rgba:0.0", "0.0"); ("ui.color.Rgba:0.1", "0.0");
   ("ui.color.Rgba:0.2", "0.0"); ("ui.color.Rgba:0.3", "0.0");
   ("ui.color.discrim", quote ++ "White" ++ quote); ("ui.thickness", "3")]%string.

Definition flat_map_text (es : list (string * string)) : string :=
  ("{" ++ join_str "," (map (fun '(k, v) => quote ++ k ++ quote ++ ":" ++ v) es) ++ "}")%string.

Definition spec_literal : string := flat_map_text spec_entries.

(** The same map with the keys [path.join(".")] produces. *)
Definition dotted_entries : list (string * string) :=
  [("ui.color.Named.code", quote ++ quote);
   ("ui.color.Rgb.0", "0.0"); ("ui.color.Rgb.1", "0.0"); ("ui.color.Rgb.2", "0.0");
   ("ui.color.Rgba.0.0", "0.0"); ("ui.color.Rgba.0.1", "0.0");
   ("ui.color.Rgba.0.2", "0.0"); ("ui.color.Rgba.0.3", "0.0");
   ("ui.color.discrim", quote ++ "White" ++ quote); ("ui.thickness", "3")]%string.

(** The reload payload of the spec (section 6) and of [load_json]. *)
Definition spec_reload : list (string * raw) :=
  [("ui.thickness", RNum "5"); ("ui.color.discrim", RStr "Named");
   ("ui.color.Named:code", RStr "red")]%string.

(* ================================================================== *)
(** ** Where a scalar sits in a handle tree *)








(** Which nodes an editor traversal draws, when nothing is edited: a
    relevant scalar, or what a relevant, open composite's children
    draw. *)
Module EditorReach.

Import Editor.

Definition relevant (vs : values) (rel : option (nat * (value -> bool))) : bool :=
  match rel with Some (d, p) => p (vs d) | None => true end.

Inductive reaches (is_open : nat -> bool) (vs : values) : enode -> nat -> Prop :=
| reaches_draw i rel ks :
    relevant vs rel = true -> reaches is_open vs (ENode i rel true ks) i
| reaches_kid i rel ks k j :
    relevant vs rel = true -> is_open i = true -> In k ks -> reaches is_open vs k j ->
    reaches is_open vs (ENode i rel false ks) j.

(** The scalar nodes of a tree whose enclosing composite groups all have
    their collapsing headers open, whatever the relevance of the nodes on
    the way. *)
Inductive under_open (is_open : nat -> bool) : enode -> nat -> Prop :=
| under_open_draw i rel ks : under_open is_open (ENode i rel true ks) i
| under_open_kid i rel ks k j :
    is_open i = true -> In k ks -> under_open is_open k j ->
    under_open is_open (ENode i rel false ks) j.

End EditorReach.

(* ================================================================== *)
(** ** The values [serde_json] writes and reads back *)

(** The values a [ScalarData<T>] of each scalar type can hold: an [i32] in
    range, any [f32] (NaN and the infinities included), any string, and a discriminant naming one of
    its type's variants. *)
Definition value_fits (t : scalar_ty) (v : value) : bool :=
  match t, v with
  | TyI32, VI32 z => andb (-(2 ^ 31) <=? z)%Z (z <? 2 ^ 31)%Z
  | TyF32, VF32 _ => true
  | TyString, VString _ => true
  | TyWrapper _ ns, VDiscrim n => existsb (String.eqb n) ns
  | TyDiscrim _ ns, VDiscrim n => existsb (String.eqb n) ns
  | _, _ => false
  end.

(** The JSON scalar [serialize_once] writes for a value ([json_value]), as
    the tokenizer reads it back into a [Box<RawValue>]. *)
Definition raw_of_value (v : value) : raw :=
  match v with
  | VI32 z => RNum (string_of_Z z)
  | VF32 t => if f32_non_finite t then RNull else RNum t
  | VString s => RStr s
  | VDiscrim n => RStr n
  end.

(** The text of a JSON scalar token. *)
Definition json_raw (r : raw) : string :=
  match r with RStr s => json_string s | RNum t => t | RNull => "null" end.

(** [serialize_once] as the key and the value token it writes. *)
Definition dump_entry (w : world) (k : scanned) : option (string * raw) :=
  let '(p, e, t) := k in
  match nth_node w e with
  | Some n =>
      match scalar n with
      | Some (t', v) => if scalar_ty_eqb t t' then Some (join_str "." p, raw_of_value v) else None
      | None => None
      end
  | None => None
  end.

(** The entries of [serialize_all], in its order, as key and value token. *)
Definition dump_entries (w : world) (types : list scalar_ty) : option (list (string * raw)) :=
  all_some (map (dump_entry w) (serialize_entries w types)).

(** The compact JSON text of a map entry and of a map of such entries. *)
Definition render_entry (kr : string * raw) : string :=
  let '(k, r) := kr in (json_string k ++ ":" ++ json_raw r)%string.

Definition render_object (es : list (string * raw)) : string :=
  ("{" ++ join_str "," (map render_entry es) ++ "}")%string.

(** Everything of a node but its stored value: path, generation, parent,
    relevance and scalar type. *)
Definition node_shape (n : node) : list string * Z * option nat * option relevance * option scalar_ty :=
  (path n, generation n, parent n, dep n, option_map fst (scalar n)).

(** Every stored scalar value fits its type. *)
Definition world_fits (w : world) : bool :=
  forallb (fun n => match scalar n with Some (t, v) => value_fits t v | None => true end) w.

(* ================================================================== *)
(** ** The egui number editor of an [i32] field ([number_impl.rs]) *)

(** [i32::MIN] = -2^31, [i32::MAX] = 2^31 - 1, [u32::MAX] = 2^32 - 1. *)
Definition i32_min : Z := (-2147483648)%Z.
Definition i32_max : Z := 2147483647%Z.
Definition u32_max : Z := 4294967295%Z.

(** [s.parse::<i32>()] ([from_str_radix] with radix 10): an empty string
    and a lone sign are errors, one leading ['+'] or ['-'] is taken, then
    decimal digits only, and the result must be in range. *)
Definition parse_i32 (s : string) : option Z :=
  let '(neg, digits) :=
    match s with
    | String a rest =>
        if Ascii.eqb a "+"%char then (false, rest)
        else if Ascii.eqb a "-"%char then (true, rest)
        else (false, s)
    | EmptyString => (false, s)
    end in
  match s, digits with
  | EmptyString, _ => None
  | _, EmptyString => None
  | _, _ =>
      match parse_digits digits 0 with
      | Some n =>
          let z := if neg then (- n)%Z else n in
          if andb (i32_min <=? z)%Z (z <=? i32_max)%Z then Some z else None
      | None => None
      end
  end.

(** [u32::try_from(i).unwrap_or_else(|_| u32::max_value())] of a key
    press count. *)
Definition u32_of_usize (n : nat) : Z :=
  if (Z.of_nat n <=? u32_max)%Z then Z.of_nat n else u32_max.

(** [i32::saturating_add_unsigned] and [i32::saturating_sub_unsigned]. *)
Definition saturating_add_unsigned (v u : Z) : Z :=
  if (i32_max <? v + u)%Z then i32_max else (v + u)%Z.

Definition saturating_sub_unsigned (v u : Z) : Z :=
  if (v - u <? i32_min)%Z then i32_min else (v - u)%Z.

(** The [NumericMetadata<i32>] fields [Editable::show] reads: [min], [max]
    and [slider]. *)
Record numeric_metadata := { nm_min : Z; nm_max : Z; nm_slider : bool }.

(** What egui reports for the field in one frame: the text the user typed
    into the [TextEdit] ([Some] when it changed), whether it has the focus,
    the [ArrowUp] and [ArrowDown] presses without modifiers consumed by
    [count_and_consume_key], and whether the focus was lost. *)
Record frame_input := {
  typed : option string; has_focus : bool;
  up_presses : nat; down_presses : nat; lost_focus : bool
}.

(** The text branch of [Editable::show] for [i32] (taken when
    [nm_slider] is [false]): the new value, the new [TempData] and
    [resp.changed()]. *)
Definition show_i32_text (md : numeric_metadata) (value : Z) (temp_data : option string)
    (fr : frame_input) : Z * option string * bool :=
  let value_str := match temp_data with Some s => s | None => string_of_Z value end in
  let '(value_str, changed) :=
    match typed fr with Some s => (s, true) | None => (value_str, false) end in
  let parsed := parse_i32 value_str in
  let temp_data := Some value_str in
  let '(value, temp_data, changed) :=
    match changed, parsed with
    | true, Some parsed =>
        let parsed := if (parsed <? nm_min md)%Z then nm_min md else parsed in
        let parsed := if (nm_max md <? parsed)%Z then nm_max md else parsed in
        (parsed, temp_data, changed)
    | _, _ =>
        if has_focus fr then
          let '(value, temp_data, changed) :=
            match up_presses fr with
            | O => (value, temp_data, changed)
            | presses =>
                let value := saturating_add_unsigned value (u32_of_usize presses) in
                (value, Some (string_of_Z value), true)
            end in
          match down_presses fr with
          | O => (value, temp_data, changed)
          | presses =>
              let value := saturating_sub_unsigned value (u32_of_usize presses) in
              (value, Some (string_of_Z value), true)
          end
        else (value, temp_data, changed)
    end in
  let temp_data := if lost_focus fr then None else temp_data in
  (value, temp_data, changed).

(** The [draw_fn] of the egui manager for an [i32] field whose metadata
    has [slider = false], so that [Editable::show] takes its text branch:
    the label needs a last path segment, the field needs its
    [ScalarData<i32>] (both [expect]s), and a changed response bumps the
    generation with [FieldGeneration::next].  The new node and the
    [TempData] stored back. *)
Definition draw_i32_text (md : numeric_metadata) (n : node) (temp_data : option string)
    (fr : frame_input) : option (node * option string) :=
  match path n with
  | [] => None
  | _ =>
      match scalar n with
      | Some (TyI32, VI32 v) =>
          let '(v', temp_data, changed) := show_i32_text md v temp_data fr in
          let sd := Some (TyI32, VI32 v') in
          if changed then
            match generation_next (generation n) with
            | Some g =>
                Some ({| path := path n; generation := g; parent := parent n; dep := dep n;
                         scalar := sd |}, temp_data)
            | None => None
            end
          else Some ({| path := path n; generation := generation n; parent := parent n;
                        dep := dep n; scalar := sd |}, temp_data)
      | _ => None
      end
  end.

(** [float.round() as i32] ([from_float] of [impl_number_signed!]) on the
    rounded float: Rust's [as] saturates at the bounds of [i32]. *)
Definition i32_of_rounded (x : Z) : Z :=
  if (x <? i32_min)%Z then i32_min else if (i32_max <? x)%Z then i32_max else x.

(** The slider branch of [Editable::show] for [i32] (taken when
    [nm_slider] is [true]; [min] and [max] are always [Some]).  What the
    [egui::Slider] reports in the frame is [slider]: [Some x] when
    [resp.changed()], with [x] its new [f64] value rounded to an integer
    ([value_float.round()]), [None] otherwise.  The new value and
    [resp.changed()]; [TempData] is not touched. *)
Definition show_i32_slider (value : Z) (slider : option Z) : Z * bool :=
  match slider with
  | Some x => (i32_of_rounded x, true)
  | None => (value, false)
  end.

(** The [draw_fn] of the egui manager for an [i32] field: the label needs
    a last path segment, the field needs its [ScalarData<i32>] (both
    [expect]s), [Editable::show] takes the slider branch when
    [nm_slider] holds and the text branch otherwise, and a changed
    response bumps the generation with [FieldGeneration::next].  The new
    node and the [TempData] stored back. *)
Definition draw_i32 (md : numeric_metadata) (n : node) (temp_data : option string)
    (fr : frame_input) (slider : option Z) : option (node * option string) :=
  match path n with
  | [] => None
  | _ =>
      match scalar n with
      | Some (TyI32, VI32 v) =>
          let '(v', temp_data, changed) :=
            if nm_slider md
            then let '(v', changed) := show_i32_slider v slider in (v', temp_data, changed)
            else show_i32_text md v temp_data fr in
          let sd := Some (TyI32, VI32 v') in
          if changed then
            match generation_next (generation n) with
            | Some g =>
                Some ({| path := path n; generation := g; parent := parent n; dep := dep n;
                         scalar := sd |}, temp_data)
            | None => None
            end
          else Some ({| path := path n; generation := generation n; parent := parent n;
                        dep := dep n; scalar := sd |}, temp_data)
      | _ => None
      end
  end.

(* ------------------------------------------------------------------ *)
(** ** What [spawn_world] establishes about the entities it spawns *)

(** The dependency [d] of the entity at index [i] names an entity [j]
    spawned at or after [base] and before [i] whose [ScalarData] is a
    discriminant wrapper listing the required variant. *)
Definition dep_on_discrim (base i : nat) (w : world) (d : option relevance) : Prop :=
  exists j vn dn ns v0 m,
    d = Some {| dependency := j; rel_variant := vn |} /\ base <= j < i /\
    nth_error w j = Some m /\ scalar m = Some (TyWrapper dn ns, v0) /\ In vn ns.

(** The context [c'] of a nested spawn, seen from index [i] of the world
    [w], lies within the context [c] of a spawn that started at [base]. *)
Definition ctx_within (base : nat) (c c' : spawn_ctx) (i : nat) (w : world) : Prop :=
  (exists sfx, ctx_path c' = ctx_path c ++ sfx) /\
  (ctx_parent c' = ctx_parent c \/ exists j, base <= j < i /\ ctx_parent c' = Some j) /\
  (ctx_dep c' = ctx_dep c \/ ctx_dep c' = None \/ dep_on_discrim base i w (ctx_dep c')).

(** The entity [n] at index [i], spawned by a spawn at context [c] that
    started at index [base], with final registry [r] and world [w]. *)
Definition spawned_node (base : nat) (c : spawn_ctx) (r : registry) (w : world)
  (i : nat) (n : node) : Prop :=
  generation n = generation_default /\
  (exists sfx, path n = ctx_path c ++ sfx) /\
  (forall t v, scalar n = Some (t, v) -> In t r) /\
  (parent n = ctx_parent c \/ exists j, base <= j < i /\ parent n = Some j) /\
  (dep n = ctx_dep c \/ dep n = None \/ dep_on_discrim base i w (dep n)).

(** A step from registry [r] and world [w] to [r'] and [w'] that only
    appends entities, each of them a [spawned_node], and only adds types. *)
Definition spawn_inv (base : nat) (c : spawn_ctx) (r : registry) (w : world)
  (r' : registry) (w' : world) : Prop :=
  (exists ext, w' = w ++ ext) /\ incl r r' /\ (NoDup r -> NoDup r') /\
  (forall i n, length w <= i -> nth_error w' i = Some n -> spawned_node base c r' w' i n).

(** [nodupb ks]: the keys [ks] are pairwise distinct. *)
Fixpoint nodupb (ks : list string) : bool :=
  match ks with
  | [] => true
  | k :: ks' => negb (existsb (String.eqb k) ks') && nodupb ks'
  end.

(** What Rust guarantees of every schema [#[derive(Config)]] accepts: the
    hierarchy keys of a struct's fields (field names or tuple indices) are
    distinct, and so are an enum's variant names and the keys of each
    variant's fields. *)
Fixpoint schema_ok (f : field_ty) : bool :=
  match f with
  | FScalar _ _ => true
  | FStruct fs =>
      nodupb (map fst fs) &&
      (fix go fs := match fs with [] => true | (_, ft) :: fs' => schema_ok ft && go fs' end) fs
  | FEnum _ vs =>
      nodupb (map fst vs) &&
      (fix gov vs := match vs with
        | [] => true
        | (_, fs) :: vs' =>
            nodupb (map fst fs) &&
            (fix go fs := match fs with [] => true | (_, ft) :: fs' => schema_ok ft && go fs' end) fs &&
            gov vs'
        end) vs
  end.

(** The path segments below the context path of the entities spawned for
    [f], in spawn order, following the hierarchy keys of [gen_spawn_world]:
    the node itself, then a field key, ["discrim"], or a variant name and
    a field key in front of the segments of the field's own entities. *)
Fixpoint schema_paths (f : field_ty) : list (list string) :=
  match f with
  | FScalar _ _ => [[]]
  | FStruct fs =>
      [] :: (fix go fs := match fs with
              | [] => []
              | (k, ft) :: fs' => map (fun s => k :: s) (schema_paths ft) ++ go fs'
              end) fs
  | FEnum _ vs =>
      [] :: ["discrim"%string] :: (fix gov vs := match vs with
        | [] => []
        | (vn, fs) :: vs' =>
            (fix go fs := match fs with
             | [] => []
             | (k, ft) :: fs' => map (fun s => vn :: k :: s) (schema_paths ft) ++ go fs'
             end) fs ++ gov vs'
        end) vs
  end.

(* ================================================================== *)
(** * Theorems *)

(* ------------------------------------------------------------------ *)
(** ** Concrete runs on the example schema *)

(** C1 (code_bug): spawning the spec's example schema at ["ui"] and
    serializing with the compact JSON backend does not give the spec's
    literal: enum variant fields are keyed ["ui.color.Rgb.0"], not
    ["ui.color.Rgb:0"], because the variant name and the field key are two
    path segments joined by ["."]. *)
Theorem example_serialize_dotted_keys :
  serialize_all example_world example_types = Some (flat_map_text dotted_entries) /\
  serialize_all example_world example_types <> Some spec_literal.
Proof. split; vm_compute; [reflexivity | congruence]. Qed.

(** C2 (code_bug): a key that matches no node is not skipped: its value is
    left unread, and [serde_json]'s next [next_key] fails with
    [ExpectedObjectCommaOrEnd].  This holds for [{"unknown":1}] and for the
    spec's own reload payload, whose key ["ui.color.Named:code"] is unknown. *)
Theorem unknown_key_fails_deserialize :
  snd (deserialize example_world example_types (json_object [("unknown"%string, RNum "1")]))
    = inl ExpectedObjectCommaOrEnd /\
  snd (deserialize example_world example_types (json_object spec_reload))
    = inl ExpectedObjectCommaOrEnd.
Proof. split; vm_compute; reflexivity. Qed.

(** C3 (code_bug): the generated enum [changed] queries for
    [&ScalarData<Discrim>], a component no entity has (the discriminant is
    stored as [ScalarData<EnumDiscriminantWrapper<Discrim>>]), so
    [ReadConfig::changed] of the example root panics both before and after
    the active variant is switched to [Named]: the witness cannot differ. *)
Theorem enum_changed_panics_on_switch :
  exists w',
    mutate example_world 3 (VDiscrim "Named") = Some w' /\
    read_config_changed Settings example_world example_handle = None /\
    read_config_changed Settings w' example_handle = None /\
    read_config_changed Color example_world (HEnum 2 3 [("White", []);
      ("Rgb", [HScalar 4; HScalar 5; HScalar 6]);
      ("Rgba", [HStruct 7 [HScalar 8; HScalar 9; HScalar 10; HScalar 11]]);
      ("Named", [HScalar 12])]%string) = None.
Proof. eexists; split; [vm_compute; reflexivity | vm_compute; repeat split]. Qed.


(** C10 (code_bug): the first [consume_change] on the example root, state
    still empty, panics instead of returning [true], for the reason of C3. *)
Theorem first_consume_change_panics :
  consume_change Settings example_world example_handle None = None.
Proof. vm_compute. reflexivity. Qed.

(** C5 (counterexample): a relevant scalar child of a root group whose
    collapsing header is closed is not visited: [ui.collapsing] only runs
    its body while the header is open. *)
Theorem collapsed_group_hides_child :
  snd (Editor.show_roots (fun _ v => v) (fun _ => false) (fun _ => VI32 0)
         [Editor.ENode 0 None false [Editor.ENode 1 None true []]]) = [].
Proof. reflexivity. Qed.

(* ------------------------------------------------------------------ *)
(** ** Keys: [split('.')] undoes [join(".")] in the other direction *)

Lemma split_char_not_nil c s : split_char c s <> [].
Proof.
  induction s as [|a s IH]; simpl; [discriminate|].
  destruct (Ascii.eqb a c); [discriminate|].
  destruct (split_char c s); discriminate.
Qed.

Lemma join_str_cons_char sep a p ps :
  join_str sep (String a p :: ps) = String a (join_str sep (p :: ps)).
Proof. destruct ps; reflexivity. Qed.

(** Joining the pieces of [k.split('.')] with ["."] gives [k] back. *)
Lemma join_split_dot k : join_str "." (split_char dot k) = k.
Proof.
  induction k as [|a k IH]; [reflexivity|].
  simpl split_char.
  destruct (Ascii.eqb a dot) eqn:Ha.
  - apply Ascii.eqb_eq in Ha; subst a.
    pose proof (split_char_not_nil dot k) as Hne.
    destruct (split_char dot k) as [|p ps] eqn:Hs; [contradiction|].
    change (join_str "." (EmptyString :: p :: ps)) with (EmptyString ++ "." ++ join_str "." (p :: ps))%string.
    rewrite IH. reflexivity.
  - pose proof (split_char_not_nil dot k) as Hne.
    destruct (split_char dot k) as [|p ps] eqn:Hs; [contradiction|].
    rewrite join_str_cons_char, IH. reflexivity.
Qed.

(* ------------------------------------------------------------------ *)
(** ** What [deserialize] writes *)

Section DeserializeFrame.

Lemma set_scalar_from_generation i e v ns :
  map generation (set_scalar_from i e v ns) = map generation ns.
Proof.
  revert i; induction ns as [|n ns IH]; intros i; simpl; [reflexivity|].
  destruct (Nat.eqb i e); simpl; [reflexivity|]. now rewrite IH.
Qed.

Lemma set_scalar_from_other i e v ns j :
  i + j <> e -> nth_error (set_scalar_from i e v ns) j = nth_error ns j.
Proof.
  revert i j; induction ns as [|n ns IH]; intros i j Hne; simpl; [reflexivity|].
  destruct (Nat.eqb i e) eqn:Hi.
  - apply Nat.eqb_eq in Hi. destruct j; [lia|reflexivity].
  - destruct j; [reflexivity|]. simpl. apply IH. lia.
Qed.

Lemma deserialize_map_value_generation w e t ts :
  map generation (fst (deserialize_map_value w e t ts)) = map generation w.
Proof.
  unfold deserialize_map_value.
  destruct (next_value ts) as [|[r ts']]; [reflexivity|].
  destruct (decode t r); [reflexivity|]. apply set_scalar_from_generation.
Qed.

Lemma visit_map_generation fuel idx first w ts :
  map generation (fst (visit_map fuel idx first w ts)) = map generation w.
Proof.
  revert first w ts; induction fuel as [|fuel IH]; intros first w ts; simpl; [reflexivity|].
  destruct (next_key first ts) as [|[[k ts']|]]; simpl; try reflexivity.
  destruct (index_map_by_de_key idx k) as [[e t]|]; [|apply IH].
  pose proof (deserialize_map_value_generation w e t ts') as Hg.
  destruct (deserialize_map_value w e t ts') as [w' [|ts'']]; simpl in *; [exact Hg|].
  rewrite IH. exact Hg.
Qed.

(** Every entity of [keys_with_types] is a scanned node under its own
    path. *)
Lemma scalar_ty_eqb_true a b : scalar_ty_eqb a b = true -> a = b.
Proof. unfold scalar_ty_eqb. destruct (scalar_ty_eq_dec a b); congruence. Qed.

Lemma scan_from_sound t i ns p e :
  In (p, e) (scan_from t i ns) ->
  exists n, nth_error ns (e - i) = Some n /\ i <= e /\ path n = p
            /\ exists v, scalar n = Some (t, v).
Proof.
  revert i; induction ns as [|n ns IH]; intros i Hin; simpl in Hin; [contradiction|].
  assert (Hrest : In (p, e) (scan_from t (S i) ns) ->
                  exists n0, nth_error (n :: ns) (e - i) = Some n0 /\ i <= e /\ path n0 = p
                             /\ exists v, scalar n0 = Some (t, v)).
  { intros H. destruct (IH (S i) H) as [n0 [Hn [Hle [Hp Hv]]]].
    exists n0. replace (e - i) with (S (e - S i)) by lia. simpl.
    split; [exact Hn|split; [lia|split; [exact Hp|exact Hv]]]. }
  destruct (scalar n) as [[t' v]|] eqn:Hs; [destruct (scalar_ty_eqb t t') eqn:Ht|]; auto.
  destruct Hin as [Heq|Hin]; auto.
  inversion Heq; subst. exists n. rewrite Nat.sub_diag.
  apply scalar_ty_eqb_true in Ht. subst. eauto.
Qed.

Lemma keys_with_types_sound_ty w types p e t :
  In (p, e, t) (keys_with_types w types) ->
  exists n, nth_node w e = Some n /\ path n = p /\ exists v, scalar n = Some (t, v).
Proof.
  unfold keys_with_types. intros Hin.
  apply in_flat_map in Hin as [t' [_ Hin]].
  apply in_map_iff in Hin as [[p' e'] [Heq Hin]]. inversion Heq; subst.
  destruct (scan_from_sound _ _ _ _ _ Hin) as [n [Hn [_ [Hp Hv]]]].
  rewrite Nat.sub_0_r in Hn. eauto.
Qed.

Lemma keys_with_types_sound w types p e t :
  In (p, e, t) (keys_with_types w types) -> exists n, nth_node w e = Some n /\ path n = p.
Proof.
  intros Hin. destruct (keys_with_types_sound_ty _ _ _ _ _ Hin) as [n [Hn [Hp _]]]. eauto.
Qed.

Lemma index_lookup_in idx p v : index_lookup idx p = Some v -> In (p, v) idx.
Proof.
  unfold index_lookup. intros H.
  destruct (find _ (rev idx)) as [[p' v']|] eqn:Hf; [|discriminate].
  inversion H; subst.
  apply find_some in Hf as [Hin Hp].
  destruct (list_eq_dec string_dec p p'); [|discriminate]. subst.
  apply in_rev. exact Hin.
Qed.

(** A key reaches entity [e] only if it is [e]'s path joined with ["."]. *)
Lemma index_map_sound w types k e t :
  index_map_by_de_key (build_index (keys_with_types w types)) k = Some (e, t) ->
  exists n, nth_node w e = Some n /\ k = join_str "." (path n).
Proof.
  unfold index_map_by_de_key. intros H.
  apply index_lookup_in in H. unfold build_index in H.
  apply in_map_iff in H as [[[p e'] t'] [Heq Hin]]. inversion Heq; subst.
  destruct (keys_with_types_sound _ _ _ _ _ Hin) as [n [Hn Hp]].
  exists n. split; auto. rewrite Hp. symmetry. apply join_split_dot.
Qed.

Lemma visit_map_S fuel idx first w ts :
  visit_map (S fuel) idx first w ts =
  match next_key first ts with
  | inl err => (w, inl err)
  | inr None => (w, inr ts)
  | inr (Some (k, ts')) =>
      match index_map_by_de_key idx k with
      | Some (e, t) =>
          match deserialize_map_value w e t ts' with
          | (w', inl err) => (w', inl err)
          | (w', inr ts'') => visit_map fuel idx false w' ts''
          end
      | None => visit_map fuel idx false w ts'
      end
  end.
Proof. reflexivity. Qed.

Lemma visit_map_object_frame w0 types e n es : forall fuel first w,
  nth_node w e = Some n ->
  (forall k r, In (k, r) es -> k <> join_str "." (path n)) ->
  nth_node w0 e = Some n ->
  nth_node (fst (visit_map fuel (build_index (keys_with_types w0 types)) first w
                   (object_body first es))) e = Some n.
Proof.
  induction es as [|[k r] es IH]; intros fuel first w Hw Hkeys Hw0.
  - destruct fuel; simpl; [exact Hw|]. destruct first; exact Hw.
  - destruct fuel; [exact Hw|].
    rewrite visit_map_S.
    assert (Hk : next_key first (object_body first ((k, r) :: es))
                 = inr (Some (k, TColon :: raw_token r :: object_body false es))).
    { destruct first; reflexivity. }
    rewrite Hk.
    destruct (index_map_by_de_key _ k) as [[e' t]|] eqn:Hidx.
    + apply index_map_sound in Hidx as Hs. destruct Hs as [n' [Hn' Hk']].
      assert (He : e' <> e).
      { intros <-. rewrite Hw0 in Hn'. injection Hn' as <-.
        exact (Hkeys k r (or_introl eq_refl) Hk'). }
      unfold deserialize_map_value.
      assert (Hnv : next_value (TColon :: raw_token r :: object_body false es)
                    = inr (r, object_body false es)) by (destruct r; reflexivity).
      rewrite Hnv.
      destruct (decode t r) as [err|v]; [exact Hw|].
      apply IH; auto.
      * unfold nth_node, set_scalar_value. rewrite set_scalar_from_other; [exact Hw|lia].
      * intros k0 r0 Hin. apply (Hkeys k0 r0). right. exact Hin.
    + destruct fuel; [exact Hw|]. simpl. exact Hw.
Qed.

End DeserializeFrame.

(** C6: [Serde::deserialize] never changes any node's
    [ConfigNode.generation], whatever the input and whether it succeeds:
    it writes [ScalarData] only, so a node updated from the input keeps its
    generation. *)
Theorem deserialize_keeps_generation w types ts e :
  option_map generation (nth_node (fst (deserialize w types ts)) e)
  = option_map generation (nth_node w e).
Proof.
  unfold nth_node.
  rewrite <- !nth_error_map.
  f_equal.
  unfold deserialize.
  destruct ts as [|t ts]; [reflexivity|].
  destruct t; try reflexivity.
  pose proof (visit_map_generation (length ts)
                (build_index (keys_with_types w types)) true w ts) as Hg.
  destruct (visit_map _ _ _ _ _) as [w' [|rest]]; exact Hg.
Qed.

(** C9: a node whose path, joined with ["."], is none of the keys of the
    input map [{k1:v1,..}] is left exactly as it was by
    [Serde::deserialize], value included, whether or not the call
    succeeds. *)
Theorem deserialize_absent_key_untouched w types es e n :
  nth_node w e = Some n ->
  (forall k r, In (k, r) es -> k <> join_str "." (path n)) ->
  nth_node (fst (deserialize w types (json_object es))) e = Some n.
Proof.
  intros Hn Hkeys. unfold deserialize, json_object.
  pose proof (visit_map_object_frame w types e n es
                (length (object_body true es)) true w Hn Hkeys Hn) as H.
  destruct (visit_map _ _ _ _ _) as [w' [|rest]]; exact H.
Qed.

Lemma deserialize_absent_key_untouched_witness :
  nth_node example_world 1 = Some thickness_node /\
  nth_node (fst (deserialize example_world example_types
                   (json_object [("ui.color.discrim"%string, RStr "Named")])))
           1 = Some thickness_node.
Proof.
  split; [vm_compute; reflexivity|].
  apply (deserialize_absent_key_untouched example_world example_types
           [("ui.color.discrim"%string, RStr "Named")] 1 thickness_node).
  - vm_compute. reflexivity.
  - intros k r [H|[]]. injection H as <- <-. vm_compute. discriminate.
Defined.

(* ------------------------------------------------------------------ *)
(** ** Registration *)

Section Registration.

Lemma existsb_eqb_In k ks : existsb (String.eqb k) ks = true <-> In k ks.
Proof.
  rewrite existsb_exists. split.
  - intros [x [Hin Hx]]. apply String.eqb_eq in Hx. subst. exact Hin.
  - intros Hin. exists k. split; [exact Hin | apply String.eqb_refl].
Qed.

Lemma init_config_with_None m c k a :
  Registry.init_config_with m c k a = None <->
  (exists id, Registry.manager_type a = Some id /\ id <> m)
  \/ In k (Registry.root_keys a) \/ In c (Registry.root_fields a).
Proof.
  unfold Registry.init_config_with, Registry.replace_key.
  destruct (Registry.manager_type a) as [id|] eqn:Hm.
  - destruct (String.eqb id m) eqn:Hid; simpl.
    + apply String.eqb_eq in Hid. subst id.
      destruct (existsb (String.eqb k) (Registry.root_keys a)) eqn:Hk.
      * apply existsb_eqb_In in Hk. intuition discriminate.
      * destruct (existsb (String.eqb c) (Registry.root_fields a)) eqn:Hc.
        -- apply existsb_eqb_In in Hc. intuition discriminate.
        -- split; [discriminate|].
           intros [[id [Hid Hne]]|[Hk'|Hc']].
           ++ inversion Hid; subst; contradiction.
           ++ apply existsb_eqb_In in Hk'. congruence.
           ++ apply existsb_eqb_In in Hc'. congruence.
    + apply String.eqb_neq in Hid. split; [|reflexivity]. intros _. left. eauto.
  - destruct (existsb (String.eqb k) (Registry.root_keys a)) eqn:Hk.
    + apply existsb_eqb_In in Hk. intuition discriminate.
    + destruct (existsb (String.eqb c) (Registry.root_fields a)) eqn:Hc.
      * apply existsb_eqb_In in Hc. intuition discriminate.
      * split; [discriminate|].
        intros [[id [Hid _]]|[Hk'|Hc']].
        -- discriminate.
        -- apply existsb_eqb_In in Hk'. congruence.
        -- apply existsb_eqb_In in Hc'. congruence.
Qed.

Lemma init_config_with_Some m c k a a' :
  Registry.init_config_with m c k a = Some a' ->
  Registry.manager_type a' = Some m
  /\ (Registry.manager_type a = None \/ Registry.manager_type a = Some m)
  /\ Registry.root_keys a' = k :: Registry.root_keys a
  /\ Registry.root_fields a' = c :: Registry.root_fields a.
Proof.
  unfold Registry.init_config_with, Registry.replace_key.
  destruct (Registry.manager_type a) as [id|] eqn:Hm.
  - destruct (String.eqb id m) eqn:Hid; simpl; [|discriminate].
    apply String.eqb_eq in Hid. subst id.
    destruct (existsb (String.eqb k) (Registry.root_keys a)); [discriminate|].
    destruct (existsb (String.eqb c) (Registry.root_fields a)); [discriminate|].
    intros H; inversion H; subst; simpl; auto.
  - destruct (existsb (String.eqb k) (Registry.root_keys a)); [discriminate|].
    destruct (existsb (String.eqb c) (Registry.root_fields a)); [discriminate|].
    intros H; inversion H; subst; simpl; auto.
Qed.

Lemma run_from_app a l1 l2 :
  Registry.run_from a (l1 ++ l2) =
  match Registry.run_from a l1 with Some a1 => Registry.run_from a1 l2 | None => None end.
Proof.
  revert a; induction l1 as [|[[m c] k] l1 IH]; intros a; simpl; [reflexivity|].
  destruct (Registry.init_config_with m c k a); [apply IH|reflexivity].
Qed.

Lemma run_registered calls a : Registry.run calls = Some a -> registered calls a.
Proof.
  revert a; induction calls as [|[[m c] k] calls IH] using rev_ind; intros a Hrun.
  - inversion Hrun; subst. unfold registered; simpl. intuition.
  - unfold Registry.run in Hrun. rewrite run_from_app in Hrun.
    destruct (Registry.run_from Registry.empty_app calls) as [a0|] eqn:H0; [|discriminate].
    simpl in Hrun.
    destruct (Registry.init_config_with m c k a0) as [a1|] eqn:H1; [|discriminate].
    inversion Hrun; subst a1.
    destruct (IH a0 H0) as [Hnil [Hall [Hkeys Hfields]]].
    destruct (init_config_with_Some _ _ _ _ _ H1) as [Hm [Hm0 [Hk Hc]]].
    repeat split.
    + intros Hc'. destruct calls; discriminate.
    + intros m' c' k' Hin. rewrite Hm. apply in_app_or in Hin as [Hin|[Hin|[]]].
      * specialize (Hall _ _ _ Hin). destruct Hm0 as [Hm0|Hm0]; congruence.
      * inversion Hin; subst. reflexivity.
    + intros Hx. rewrite Hk in Hx. rewrite map_app. apply in_or_app.
      destruct Hx as [<-|Hx]; [right; left; reflexivity|left; apply Hkeys; exact Hx].
    + intros Hx. rewrite Hk. rewrite map_app in Hx. apply in_app_or in Hx as [Hx|[<-|[]]].
      * right. apply Hkeys. exact Hx.
      * left. reflexivity.
    + intros Hx. rewrite Hc in Hx. rewrite map_app. apply in_or_app.
      destruct Hx as [<-|Hx]; [right; left; reflexivity|left; apply Hfields; exact Hx].
    + intros Hx. rewrite Hc. rewrite map_app in Hx. apply in_app_or in Hx as [Hx|[<-|[]]].
      * right. apply Hfields. exact Hx.
      * left. reflexivity.
Qed.

End Registration.

(** C8: after any successful sequence of registrations [calls] (manager
    type, root type, key), the next [init_config_with::<M, C>(key)] panics
    if and only if an earlier registration used a manager type other than
    [M], or root type [C], or the same key; otherwise it returns an app in
    which [C] and the key are registered, the same as running all the
    registrations in order. *)
Theorem init_config_with_panics_iff calls a m c k :
  Registry.run calls = Some a ->
  (Registry.init_config_with m c k a = None <->
     (exists m' c' k', In (m', c', k') calls /\ m' <> m)
     \/ In c (map (fun x => snd (fst x)) calls)
     \/ In k (map snd calls))
  /\ (forall a', Registry.init_config_with m c k a = Some a' ->
       Registry.run (calls ++ [(m, c, k)]) = Some a'
       /\ Registry.manager_type a' = Some m
       /\ In k (Registry.root_keys a') /\ In c (Registry.root_fields a')).
Proof.
  intros Hrun.
  destruct (run_registered _ _ Hrun) as [Hnil [Hall [Hkeys Hfields]]].
  split.
  - rewrite init_config_with_None. split.
    + intros [[id [Hid Hne]]|[Hk|Hc]].
      * left. destruct calls as [|[[m0 c0] k0] calls'].
        -- rewrite Hnil in Hid; [discriminate|reflexivity].
        -- exists m0, c0, k0. split; [left; reflexivity|].
           rewrite (Hall m0 c0 k0 (or_introl eq_refl)) in Hid. congruence.
      * right; right. apply Hkeys. exact Hk.
      * right; left. apply Hfields. exact Hc.
    + intros [[m' [c' [k' [Hin Hne]]]]|[Hc|Hk]].
      * left. exists m'. split; [exact (Hall _ _ _ Hin)|exact Hne].
      * right; right. apply Hfields. exact Hc.
      * right; left. apply Hkeys. exact Hk.
  - intros a' Ha'.
    destruct (init_config_with_Some _ _ _ _ _ Ha') as [Hm [_ [Hk Hc]]].
    repeat split.
    + unfold Registry.run. rewrite run_from_app. fold (Registry.run calls). rewrite Hrun.
      simpl. rewrite Ha'. reflexivity.
    + exact Hm.
    + rewrite Hk. left. reflexivity.
    + rewrite Hc. left. reflexivity.
Qed.

Lemma init_config_with_panics_iff_witness :
  Registry.run [("Egui", "Settings", "ui")%string] = Some
    {| Registry.manager_type := Some "Egui"%string; Registry.root_keys := ["ui"%string];
       Registry.root_fields := ["Settings"%string] |} /\
  (Registry.init_config_with "Egui" "Settings" "other"
     {| Registry.manager_type := Some "Egui"%string; Registry.root_keys := ["ui"%string];
        Registry.root_fields := ["Settings"%string] |} = None <->
   (exists m' c' k', In (m', c', k') [("Egui", "Settings", "ui")%string] /\ m' <> "Egui"%string)
   \/ In "Settings"%string (map (fun x => snd (fst x)) [("Egui", "Settings", "ui")%string])
   \/ In "other"%string (map snd [("Egui", "Settings", "ui")%string])).
Proof.
  assert (Hrun : Registry.run [("Egui", "Settings", "ui")%string] = Some
    {| Registry.manager_type := Some "Egui"%string; Registry.root_keys := ["ui"%string];
       Registry.root_fields := ["Settings"%string] |}) by reflexivity.
  split; [exact Hrun|].
  exact (proj1 (init_config_with_panics_iff _ _ "Egui" "Settings" "other" Hrun)).
Defined.

(* ------------------------------------------------------------------ *)
(** ** The order of [serialize_all] *)

Section LexOrder.

Context {A : Type} (cmp : A -> A -> comparison).
Hypothesis cmp_antisym : forall x y, cmp x y = CompOpp (cmp y x).
Hypothesis cmp_eq : forall x y, cmp x y = Eq -> x = y.
Hypothesis cmp_lt_trans : forall x y z, cmp x y = Lt -> cmp y z = Lt -> cmp x z = Lt.

Lemma cmp_refl x : cmp x x = Eq.
Proof. pose proof (cmp_antisym x x) as H. destruct (cmp x x); simpl in H; congruence. Qed.

Lemma lex_cmp_antisym l1 l2 : lex_cmp cmp l1 l2 = CompOpp (lex_cmp cmp l2 l1).
Proof.
  revert l2; induction l1 as [|x l1 IH]; intros [|y l2]; simpl; try reflexivity.
  rewrite (cmp_antisym x y). destruct (cmp y x); simpl; auto.
Qed.

Lemma lex_cmp_eq l1 l2 : lex_cmp cmp l1 l2 = Eq -> l1 = l2.
Proof.
  revert l2; induction l1 as [|x l1 IH]; intros [|y l2]; simpl; try discriminate; auto.
  destruct (cmp x y) eqn:H; try discriminate.
  intros Hl. rewrite (cmp_eq _ _ H), (IH _ Hl). reflexivity.
Qed.

Lemma lex_cmp_lt_trans l1 l2 l3 :
  lex_cmp cmp l1 l2 = Lt -> lex_cmp cmp l2 l3 = Lt -> lex_cmp cmp l1 l3 = Lt.
Proof.
  revert l2 l3; induction l1 as [|x l1 IH]; intros [|y l2] [|z l3]; simpl;
    try discriminate; auto.
  destruct (cmp x y) eqn:Hxy; try discriminate;
  destruct (cmp y z) eqn:Hyz; try discriminate.
  - apply cmp_eq in Hxy, Hyz. subst. rewrite cmp_refl. apply IH.
  - apply cmp_eq in Hxy. subst. rewrite Hyz. reflexivity.
  - apply cmp_eq in Hyz. subst. rewrite Hxy. reflexivity.
  - rewrite (cmp_lt_trans _ _ _ Hxy Hyz). reflexivity.
Qed.

End LexOrder.

Lemma string_compare_lex s t :
  String.compare s t = lex_cmp Ascii.compare (list_ascii_of_string s) (list_ascii_of_string t).
Proof.
  revert t; induction s as [|a s IH]; intros [|b t]; simpl; try reflexivity.
  destruct (Ascii.compare a b); auto.
Qed.

Lemma ascii_compare_lt_trans a b c :
  Ascii.compare a b = Lt -> Ascii.compare b c = Lt -> Ascii.compare a c = Lt.
Proof. unfold Ascii.compare. rewrite !N.compare_lt_iff. lia. Qed.

Lemma string_compare_lt_trans s t u :
  String.compare s t = Lt -> String.compare t u = Lt -> String.compare s u = Lt.
Proof.
  rewrite !string_compare_lex.
  apply lex_cmp_lt_trans; [apply Ascii.compare_antisym|apply Ascii.compare_eq_iff|].
  apply ascii_compare_lt_trans.
Qed.

Lemma path_cmp_antisym p q : path_cmp p q = CompOpp (path_cmp q p).
Proof. apply lex_cmp_antisym, String.compare_antisym. Qed.

Lemma path_cmp_refl p : path_cmp p p = Eq.
Proof.
  apply (cmp_refl (lex_cmp String.compare)).
  apply lex_cmp_antisym, String.compare_antisym.
Qed.

Lemma path_cmp_eq p q : path_cmp p q = Eq -> p = q.
Proof. apply lex_cmp_eq, String.compare_eq_iff. Qed.

Lemma path_cmp_lt_trans p q r : path_cmp p q = Lt -> path_cmp q r = Lt -> path_cmp p r = Lt.
Proof.
  apply lex_cmp_lt_trans;
    [apply String.compare_antisym|apply String.compare_eq_iff|apply string_compare_lt_trans].
Qed.

Lemma scanned_le_total a b : scanned_le a b = false -> scanned_le b a = true.
Proof.
  unfold scanned_le. rewrite (path_cmp_antisym (fst (fst b))).
  destruct (path_cmp (fst (fst a)) (fst (fst b))); simpl; congruence.
Qed.

Lemma scanned_le_trans a b c :
  scanned_le a b = true -> scanned_le b c = true -> scanned_le a c = true.
Proof.
  unfold scanned_le.
  destruct (path_cmp (fst (fst a)) (fst (fst b))) eqn:Hab; try discriminate;
  destruct (path_cmp (fst (fst b)) (fst (fst c))) eqn:Hbc; try discriminate; intros _ _.
  - apply path_cmp_eq in Hab, Hbc. rewrite Hab, Hbc.
    rewrite path_cmp_refl. reflexivity.
  - apply path_cmp_eq in Hab. rewrite Hab, Hbc. reflexivity.
  - apply path_cmp_eq in Hbc. rewrite <- Hbc, Hab. reflexivity.
  - rewrite (path_cmp_lt_trans _ _ _ Hab Hbc). reflexivity.
Qed.

Section InsertionSort.

Context {A : Type} (le : A -> A -> bool).
Hypothesis le_total : forall a b, le a b = false -> le b a = true.
Hypothesis le_trans : forall a b c, le a b = true -> le b c = true -> le a c = true.

Let R a b := le a b = true.

Lemma insert_by_perm x l : Permutation (insert_by le x l) (x :: l).
Proof.
  induction l as [|y l IH]; simpl; [reflexivity|].
  destruct (le y x); [|reflexivity].
  rewrite IH. apply perm_swap.
Qed.

Lemma sort_by_perm l : Permutation (sort_by le l) l.
Proof.
  induction l as [|x l IH]; simpl; [reflexivity|].
  rewrite insert_by_perm, IH. reflexivity.
Qed.

Lemma insert_by_sorted x l : Sorted R l -> Sorted R (insert_by le x l).
Proof.
  induction l as [|y l IH]; simpl; intros H.
  - repeat constructor.
  - destruct (le y x) eqn:E.
    + apply Sorted_inv in H as [Hl Hhd]. constructor; [apply IH; exact Hl|].
      destruct l as [|z l']; simpl; [constructor; exact E|].
      destruct (le z x); constructor; [now inversion Hhd | exact E].
    + constructor; [exact H|]. constructor. apply le_total. exact E.
Qed.

Lemma sort_by_sorted l : StronglySorted R (sort_by le l).
Proof.
  apply Sorted_StronglySorted; [intros a b c; apply le_trans|].
  induction l as [|x l IH]; simpl; [constructor|].
  apply insert_by_sorted, IH.
Qed.

(** Two sorted arrangements of the same elements agree when no two
    distinct elements are equivalent. *)
Lemma sorted_perm_unique l1 l2 :
  StronglySorted R l1 -> StronglySorted R l2 -> Permutation l1 l2 ->
  (forall a b, In a l1 -> In b l1 -> R a b -> R b a -> a = b) ->
  l1 = l2.
Proof.
  revert l2; induction l1 as [|a l1 IH]; intros l2 H1 H2 Hp Hanti.
  - symmetry. apply Permutation_nil, Hp.
  - destruct l2 as [|b l2]; [apply Permutation_sym, Permutation_nil_cons in Hp; contradiction|].
    apply StronglySorted_inv in H1 as [H1 Ha].
    apply StronglySorted_inv in H2 as [H2 Hb].
    assert (Hab : a = b).
    { assert (Hin_b : In b (a :: l1)) by (apply (Permutation_in b (Permutation_sym Hp)); left; reflexivity).
      assert (Hin_a : In a (b :: l2)) by (apply (Permutation_in a Hp); left; reflexivity).
      destruct Hin_b as [<-|Hb1]; [reflexivity|].
      destruct Hin_a as [<-|Ha2]; [reflexivity|].
      apply Hanti; [left; reflexivity|right; exact Hb1| |].
      - apply (proj1 (Forall_forall _ _) Ha _ Hb1).
      - apply (proj1 (Forall_forall _ _) Hb _ Ha2). }
    subst b. f_equal.
    apply IH; auto.
    + apply Permutation_cons_inv in Hp. exact Hp.
    + intros x y Hx Hy. apply Hanti; right; assumption.
Qed.

End InsertionSort.

Lemma StronglySorted_impl {A} (R R' : A -> A -> Prop) l :
  (forall a b, R a b -> R' a b) -> StronglySorted R l -> StronglySorted R' l.
Proof.
  intros HR H. induction H as [|x l Hl IH Hx]; constructor; [exact IH|].
  eapply Forall_impl; [|exact Hx]. intros b. apply HR.
Qed.

Lemma nth_error_NoDup_inj {A} (l : list A) i j x :
  NoDup l -> nth_error l i = Some x -> nth_error l j = Some x -> i = j.
Proof.
  intros Hnd Hi Hj. apply (proj1 (NoDup_nth_error l) Hnd).
  - apply nth_error_Some. congruence.
  - congruence.
Qed.

(** Scanned entries with equivalent paths are the same entry when paths
    are distinct among nodes. *)
Lemma keys_with_types_path_inj w types a b :
  NoDup (map path w) ->
  In a (keys_with_types w types) -> In b (keys_with_types w types) ->
  fst (fst a) = fst (fst b) -> a = b.
Proof.
  destruct a as [[p e] t], b as [[p' e'] t']; simpl. intros Hnd Ha Hb <-.
  destruct (keys_with_types_sound_ty _ _ _ _ _ Ha) as [n [Hn [Hp [v Hv]]]].
  destruct (keys_with_types_sound_ty _ _ _ _ _ Hb) as [n' [Hn' [Hp' [v' Hv']]]].
  assert (He : e = e').
  { apply (nth_error_NoDup_inj (map path w) e e' p Hnd);
      unfold nth_node in *; rewrite nth_error_map; [rewrite Hn|rewrite Hn']; simpl; congruence. }
  subst e'. rewrite Hn in Hn'. injection Hn' as <-. rewrite Hv in Hv'. congruence.
Qed.

Lemma keys_with_types_perm w types types' :
  Permutation types types' -> Permutation (keys_with_types w types) (keys_with_types w types').
Proof. intros Hp. unfold keys_with_types. apply Permutation_flat_map. exact Hp. Qed.

(** C7: [Serde::serialize_all] writes its entries in ascending
    lexicographic order of their path segment lists, and, when no two
    nodes of the store share a path, the entries and the serialized text
    do not depend on the order in which the registry lists its scalar
    types. *)
Theorem serialize_all_sorted_deterministic w types :
  StronglySorted (fun a b => path_cmp (fst (fst a)) (fst (fst b)) <> Gt)
    (serialize_entries w types)
  /\ (forall types', Permutation types types' -> NoDup (map path w) ->
        serialize_entries w types = serialize_entries w types'
        /\ serialize_all w types = serialize_all w types').
Proof.
  split.
  - eapply StronglySorted_impl; [|apply (sort_by_sorted scanned_le scanned_le_total scanned_le_trans)].
    intros a b H. unfold scanned_le in H. destruct (path_cmp _ _); congruence.
  - intros types' Hp Hnd.
    assert (Heq : serialize_entries w types = serialize_entries w types').
    { unfold serialize_entries.
      apply (sorted_perm_unique scanned_le);
        try apply (sort_by_sorted scanned_le scanned_le_total scanned_le_trans).
      - rewrite !sort_by_perm. apply keys_with_types_perm. exact Hp.
      - intros a b Ha Hb Hab Hba.
        rewrite sort_by_perm in Ha, Hb.
        apply (keys_with_types_path_inj w types a b Hnd Ha Hb).
        unfold scanned_le in Hab, Hba. rewrite path_cmp_antisym in Hba.
        destruct (path_cmp (fst (fst a)) (fst (fst b))) eqn:E; simpl in *; try discriminate.
        apply path_cmp_eq. exact E. }
    split; [exact Heq|]. unfold serialize_all. rewrite Heq. reflexivity.
Qed.

Lemma serialize_all_sorted_deterministic_witness :
  Permutation example_types (rev example_types) /\ NoDup (map path example_world) /\
  serialize_all example_world example_types = serialize_all example_world (rev example_types).
Proof.
  assert (Hp : Permutation example_types (rev example_types)) by apply Permutation_rev.
  assert (Hnd : NoDup (map path example_world)).
  { vm_compute.
    repeat (constructor; [intros Hin; repeat (destruct Hin as [Hin|Hin]; [discriminate|]); exact Hin|]).
    constructor. }
  split; [exact Hp|split; [exact Hnd|]].
  exact (proj2 (proj2 (serialize_all_sorted_deterministic example_world example_types)
                  (rev example_types) Hp Hnd)).
Defined.

(* ------------------------------------------------------------------ *)
(** ** The editor traversal *)

Section EditorTraversal.

Import Editor EditorReach.

Lemma enode_ind' (P : enode -> Prop)
  (H : forall i rel dr ks, Forall P ks -> P (ENode i rel dr ks)) : forall n, P n.
Proof.
  fix IH 1. intros [i rel dr ks]. apply H.
  revert ks. fix go 1. intros [|k ks]; constructor; [apply IH|apply go].
Qed.

Lemma upd_same vs i : upd vs i (vs i) = vs.
Proof.
  apply functional_extensionality. intros x. unfold upd.
  destruct (Nat.eqb i x) eqn:E; [apply Nat.eqb_eq in E; subst; reflexivity|reflexivity].
Qed.

Lemma reaches_group is_open vs i rel ks j :
  relevant vs rel = true -> is_open i = true ->
  (reaches is_open vs (ENode i rel false ks) j <-> exists k, In k ks /\ reaches is_open vs k j).
Proof.
  intros Hr Ho. split.
  - intros H. inversion H; subst. eauto.
  - intros [k [Hk Hj]]. eapply reaches_kid; eauto.
Qed.

(** With no edit in the frame, [show_node] keeps the values and draws
    exactly the nodes [reaches] describes. *)
Lemma show_node_noedit is_open n : forall vs,
  fst (show_node (fun _ v => v) is_open vs n) = vs
  /\ (forall j, In j (snd (show_node (fun _ v => v) is_open vs n)) <-> reaches is_open vs n j).
Proof.
  induction n as [i rel dr ks HF] using enode_ind'. intros vs.
  assert (Hskip : relevant vs rel = false ->
                  forall j, ~ reaches is_open vs (ENode i rel dr ks) j).
  { intros Hr j H. inversion H; congruence. }
  simpl show_node.
  destruct (negb match rel with Some (d, p) => p (vs d) | None => true end) eqn:Hrel.
  { assert (Hr : relevant vs rel = false)
      by (unfold relevant; destruct rel as [[d p]|]; simpl in Hrel; [now destruct (p (vs d))|discriminate]).
    split; [reflexivity|]. intros j. simpl. split; [intros []|]. intros H. exact (Hskip Hr j H). }
  assert (Hr : relevant vs rel = true)
    by (unfold relevant; destruct rel as [[d p]|]; simpl in Hrel; [now destruct (p (vs d))|reflexivity]).
  clear Hskip Hrel.
  destruct dr.
  { simpl. split; [apply upd_same|]. intros j. split.
    - intros [<-|[]]. apply reaches_draw. exact Hr.
    - intros H. inversion H; subst. left. reflexivity. }
  destruct (is_open i) eqn:Ho.
  - assert (Hgo : forall j, reaches is_open vs (ENode i rel false ks) j <->
                            exists k, In k ks /\ reaches is_open vs k j)
      by (intros j; apply reaches_group; assumption).
    setoid_rewrite Hgo. clear Hgo Hr Ho.
    induction HF as [|k ks Hk HF IH]; simpl.
    + split; [reflexivity|]. intros j. split; [intros []|]. intros [k [[] _]].
    + destruct (Hk vs) as [Hvs Htr].
      destruct (show_node (fun _ v => v) is_open vs k) as [vs1 t1] eqn:E1.
      simpl in Hvs, Htr. subst vs1.
      destruct IH as [Hvs2 Htr2].
      destruct (_ vs ks) as [vs2 t2] eqn:E2.
      simpl in Hvs2, Htr2 |- *. split; [exact Hvs2|].
      intros j. rewrite in_app_iff, Htr, Htr2. split.
      * intros [H|[k' [Hk' H]]]; [exists k; auto|exists k'; auto].
      * intros [k' [[<-|Hk'] H]]; [left; exact H|right; exists k'; auto].
  - split; [reflexivity|]. intros j. simpl. split; [intros []|].
    intros H. inversion H; congruence.
Qed.

(** Whatever the edits of the frame, a node [show_node] draws is a scalar
    under open composite groups only. *)
Lemma show_node_under_open edit is_open n : forall vs j,
  In j (snd (show_node edit is_open vs n)) -> under_open is_open n j.
Proof.
  induction n as [i rel dr ks HF] using enode_ind'. intros vs j H.
  simpl show_node in H.
  destruct (negb match rel with Some (d, p) => p (vs d) | None => true end); [destruct H|].
  destruct dr.
  { destruct H as [<-|[]]. apply under_open_draw. }
  destruct (is_open i) eqn:Ho; [|destruct H].
  revert vs H. induction HF as [|k ks Hk HF IH]; intros vs H; simpl in H; [destruct H|].
  destruct (show_node edit is_open vs k) as [vs1 t1] eqn:E1.
  match type of H with context [?g vs1 ks] => destruct (g vs1 ks) as [vs2 t2] eqn:E2 end.
  simpl in H. apply in_app_or in H as [H|H].
  - apply under_open_kid with k; [exact Ho | left; reflexivity|].
    apply (Hk vs). rewrite E1. exact H.
  - specialize (IH vs1). rewrite E2 in IH. specialize (IH H).
    inversion IH; subst. apply under_open_kid with k0; [exact Ho | right; assumption | assumption].
Qed.

End EditorTraversal.

Lemma show_roots_under_open edit is_open rs : forall vs j,
  In j (snd (Editor.show_roots edit is_open vs rs)) ->
  exists r, In r rs /\ EditorReach.under_open is_open r j.
Proof.
  induction rs as [|r rs IH]; intros vs j H; simpl in H; [destruct H|].
  destruct (Editor.show_node edit is_open vs r) as [vs1 t1] eqn:E1.
  destruct (Editor.show_roots edit is_open vs1 rs) as [vs2 t2] eqn:E2.
  simpl in H. apply in_app_or in H as [H|H].
  - exists r. split; [left; reflexivity|]. apply (show_node_under_open edit is_open r vs).
    rewrite E1. exact H.
  - specialize (IH vs1 j). rewrite E2 in IH. destruct (IH H) as [r' [Hr' Hu]].
    exists r'. split; [right; exact Hr' | exact Hu].
Qed.

Lemma show_roots_noedit is_open rs : forall vs,
  fst (Editor.show_roots (fun _ v => v) is_open vs rs) = vs
  /\ (forall j, In j (snd (Editor.show_roots (fun _ v => v) is_open vs rs)) <->
                exists r, In r rs /\ EditorReach.reaches is_open vs r j).
Proof.
  induction rs as [|r rs IH]; intros vs; simpl.
  - split; [reflexivity|]. intros j. split; [intros []|]. intros [r [[] _]].
  - destruct (show_node_noedit is_open r vs) as [Hvs Htr].
    destruct (Editor.show_node _ is_open vs r) as [vs1 t1]. simpl in Hvs, Htr. subst vs1.
    destruct (IH vs) as [Hvs2 Htr2].
    destruct (Editor.show_roots _ is_open vs rs) as [vs2 t2]. simpl in Hvs2, Htr2 |- *.
    split; [exact Hvs2|]. intros j. rewrite in_app_iff, Htr, Htr2. split.
    + intros [H|[r' [Hr' H]]]; [exists r; auto|exists r'; auto].
    + intros [r' [[<-|Hr'] H]]; [left; exact H|right; exists r'; auto].
Qed.

(** C5 (amended): when [show_node] reaches a node whose
    [ConditionalRelevance] predicate is false on its dependency's current
    value, it returns at once: no [draw_fn] of its subtree runs and no
    value changes.  In any frame, whatever the edits, a node the editor
    traversal of the roots draws is a scalar node all of whose enclosing
    composite groups have their collapsing headers open.  In a frame where
    no edit happens, the traversal draws exactly the scalar nodes that lie
    under no irrelevant node and whose enclosing composite groups all have
    their collapsing headers open. *)
Theorem show_skips_irrelevant_draws_reachable :
  (forall edit is_open vs i d p dr ks,
     p (vs d) = false ->
     Editor.show_node edit is_open vs (Editor.ENode i (Some (d, p)) dr ks) = (vs, []))
  /\ (forall edit is_open vs rs j,
        In j (snd (Editor.show_roots edit is_open vs rs)) ->
        exists r, In r rs /\ EditorReach.under_open is_open r j)
  /\ (forall is_open vs rs j,
        In j (snd (Editor.show_roots (fun _ v => v) is_open vs rs)) <->
        exists r, In r rs /\ EditorReach.reaches is_open vs r j).
Proof.
  split; [|split].
  - intros edit is_open vs i d p dr ks Hp. simpl. rewrite Hp. reflexivity.
  - intros edit is_open vs rs j. apply show_roots_under_open.
  - intros is_open vs rs j. apply (proj2 (show_roots_noedit is_open rs vs)).
Qed.

Lemma show_skips_irrelevant_draws_reachable_witness :
  ((fun _ : value => false) ((fun _ : nat => VI32 0) 0) = false /\
   Editor.show_node (fun _ v => v) (fun _ => true) (fun _ => VI32 0)
     (Editor.ENode 1 (Some (0, fun _ => false)) false [Editor.ENode 2 None true []]) =
   ((fun _ => VI32 0), [])) /\
  (In 2 (snd (Editor.show_roots (fun _ _ => VI32 7) (fun _ => true) (fun _ => VI32 0)
                [Editor.ENode 1 None false [Editor.ENode 2 None true []]])) /\
   exists r, In r [Editor.ENode 1 None false [Editor.ENode 2 None true []]] /\
             EditorReach.under_open (fun _ => true) r 2).
Proof.
  split.
  - split; [reflexivity|].
    exact (proj1 show_skips_irrelevant_draws_reachable (fun _ v => v) (fun _ => true)
             (fun _ => VI32 0) 1 0 (fun _ => false) false [Editor.ENode 2 None true []] eq_refl).
  - assert (H : In 2 (snd (Editor.show_roots (fun _ _ => VI32 7) (fun _ => true) (fun _ => VI32 0)
                             [Editor.ENode 1 None false [Editor.ENode 2 None true []]])))
      by (simpl; left; reflexivity).
    split; [exact H|].
    exact (proj1 (proj2 show_skips_irrelevant_draws_reachable) (fun _ _ => VI32 7) (fun _ => true)
             (fun _ => VI32 0) [Editor.ENode 1 None false [Editor.ENode 2 None true []]] 2 H).
Defined.

(* ------------------------------------------------------------------ *)
(** ** Change propagation *)

Section ChangePropagation.





Lemma generation_next_succ g g' : generation_next g = Some g' -> g' = (g + 1)%Z.
Proof. unfold generation_next. destruct (_ <? _)%Z; congruence. Qed.




End ChangePropagation.





(* ------------------------------------------------------------------ *)
(** ** What [serialize_all] covers *)

Section SerdeCoverage.

Lemma scan_from_complete t i ns j n v :
  nth_error ns j = Some n -> scalar n = Some (t, v) -> In (path n, i + j) (scan_from t i ns).
Proof.
  revert i j; induction ns as [|n0 ns IH]; intros i j Hj Hs; [destruct j; discriminate|].
  destruct j as [|j]; simpl in Hj.
  - injection Hj as <-. simpl. rewrite Hs.
    unfold scalar_ty_eqb. destruct (scalar_ty_eq_dec t t); [|contradiction].
    left. f_equal. lia.
  - simpl. replace (i + S j) with (S i + j) by lia.
    destruct (scalar n0) as [[t' v']|]; [destruct (scalar_ty_eqb t t')|].
    + right. apply IH; assumption.
    + apply IH; assumption.
    + apply IH; assumption.
Qed.

Lemma scan_from_NoDup t i ns : NoDup (map snd (scan_from t i ns)).
Proof.
  revert i; induction ns as [|n ns IH]; intros i; simpl; [constructor|].
  destruct (scalar n) as [[t' v']|]; [destruct (scalar_ty_eqb t t')|]; try apply IH.
  simpl. constructor; [|apply IH].
  intros Hin. apply in_map_iff in Hin as [[p e] [He Hin]]. simpl in He. subst e.
  destruct (scan_from_sound _ _ _ _ _ Hin) as [n' [_ [Hle _]]]. lia.
Qed.

Lemma keys_with_types_cons w t ts :
  keys_with_types w (t :: ts)
  = map (fun '(p, e) => (p, e, t)) (scan_keys w t) ++ keys_with_types w ts.
Proof. reflexivity. Qed.

(** The entries of [keys_with_types] are exactly the nodes holding a
    [ScalarData] of a registered type. *)
Lemma keys_with_types_In w types p e t :
  In (p, e, t) (keys_with_types w types) <->
  In t types /\ exists n v, nth_node w e = Some n /\ path n = p /\ scalar n = Some (t, v).
Proof.
  split.
  - intros Hin. split.
    + unfold keys_with_types in Hin. apply in_flat_map in Hin as [t' [Ht' Hin]].
      apply in_map_iff in Hin as [[p' e'] [Heq _]]. inversion Heq; subst. exact Ht'.
    + destruct (keys_with_types_sound_ty _ _ _ _ _ Hin) as [n [Hn [Hp [v Hv]]]]. eauto.
  - intros [Ht [n [v [Hn [Hp Hv]]]]].
    unfold keys_with_types. apply in_flat_map. exists t. split; [exact Ht|].
    apply in_map_iff. exists (p, e). split; [reflexivity|].
    unfold scan_keys. rewrite <- Hp. exact (scan_from_complete t 0 w e n v Hn Hv).
Qed.

Lemma keys_with_types_NoDup w types :
  NoDup types -> NoDup (map (fun k => snd (fst k)) (keys_with_types w types)).
Proof.
  induction types as [|t ts IH]; intros Hnd; [constructor|].
  apply NoDup_cons_iff in Hnd as [Hnin Hnd].
  rewrite keys_with_types_cons, map_app. apply NoDup_app.
  - rewrite map_map.
    rewrite (map_ext _ snd); [apply scan_from_NoDup|]. intros [p e]. reflexivity.
  - apply IH. exact Hnd.
  - intros e H1 H2.
    apply in_map_iff in H1 as [[[p1 e1] t1] [He1 H1]].
    apply in_map_iff in H2 as [[[p2 e2] t2] [He2 H2]]. simpl in He1, He2. subst e1 e2.
    assert (H1' : In (p1, e, t1) (keys_with_types w (t :: ts)))
      by (rewrite keys_with_types_cons; apply in_or_app; left; exact H1).
    apply in_map_iff in H1 as [[p' e'] [Heq _]]. inversion Heq; subst t1.
    apply keys_with_types_In in H1' as [_ [n [v [Hn [_ Hv]]]]].
    apply keys_with_types_In in H2 as [Ht2 [n2 [v2 [Hn2 [_ Hv2]]]]].
    rewrite Hn in Hn2. injection Hn2 as <-. rewrite Hv in Hv2. injection Hv2 as <- _.
    contradiction.
Qed.

Lemma serialize_entries_perm w types :
  Permutation (serialize_entries w types) (keys_with_types w types).
Proof. apply sort_by_perm. Qed.

Lemma all_some_map_option_map {A B C} (f : A -> option B) (g : B -> C) l :
  all_some (map (fun x => option_map g (f x)) l) = option_map (map g) (all_some (map f l)).
Proof.
  induction l as [|x l IH]; simpl; [reflexivity|].
  destruct (f x); simpl; [|reflexivity].
  rewrite IH. destruct (all_some (map f l)); reflexivity.
Qed.

Lemma all_some_total {A B} (f : A -> option B) l :
  (forall x, In x l -> f x <> None) -> all_some (map f l) <> None.
Proof.
  induction l as [|x l IH]; intros H; simpl; [discriminate|].
  destruct (f x) eqn:Hx; [|exfalso; exact (H x (or_introl eq_refl) Hx)].
  destruct (all_some (map f l)) eqn:Hl; [discriminate|].
  exfalso. apply IH; [|reflexivity]. intros y Hy. apply H. right. exact Hy.
Qed.

Lemma all_some_In {A} (l : list (option A)) xs x :
  all_some l = Some xs -> In x xs -> In (Some x) l.
Proof.
  revert xs; induction l as [|[y|] l IH]; intros xs Hs Hin; simpl in Hs.
  - injection Hs as <-. destruct Hin.
  - destruct (all_some l) as [ys|] eqn:Hl; [|discriminate].
    injection Hs as <-. destruct Hin as [<-|Hin]; [left; reflexivity|right; exact (IH ys eq_refl Hin)].
  - discriminate.
Qed.

Lemma serialize_once_dump w k : serialize_once w k = option_map render_entry (dump_entry w k).
Proof.
  destruct k as [[p e] t]. unfold serialize_once, dump_entry.
  destruct (nth_node w e) as [n|]; [|reflexivity].
  destruct (scalar n) as [[t' v]|]; [|reflexivity].
  destruct (scalar_ty_eqb t t'); [|reflexivity].
  destruct v as [z|x|x|x]; try reflexivity.
  simpl. unfold json_value, raw_of_value. destruct (f32_non_finite x); reflexivity.
Qed.

Lemma dump_entry_keys w types k :
  In k (keys_with_types w types) -> dump_entry w k <> None.
Proof.
  destruct k as [[p e] t]. intros Hin.
  destruct (keys_with_types_sound_ty _ _ _ _ _ Hin) as [n [Hn [_ [v Hv]]]].
  unfold dump_entry. rewrite Hn, Hv.
  unfold scalar_ty_eqb. destruct (scalar_ty_eq_dec t t); [discriminate|contradiction].
Qed.

Lemma dump_entries_total w types : dump_entries w types <> None.
Proof.
  unfold dump_entries. apply all_some_total. intros k Hk. apply (dump_entry_keys w types).
  eapply Permutation_in; [apply serialize_entries_perm|exact Hk].
Qed.

Lemma serialize_all_dump w types :
  serialize_all w types = option_map render_object (dump_entries w types).
Proof.
  unfold serialize_all, dump_entries.
  rewrite (map_ext (serialize_once w) (fun k => option_map render_entry (dump_entry w k)))
    by apply serialize_once_dump.
  rewrite all_some_map_option_map.
  destruct (all_some (map (dump_entry w) (serialize_entries w types))); reflexivity.
Qed.

(** Each dumped entry is a scanned node's dotted path and its value. *)
Lemma dump_entries_In w types es k r :
  dump_entries w types = Some es -> In (k, r) es ->
  exists p e t n v, In (p, e, t) (keys_with_types w types) /\ nth_node w e = Some n
    /\ scalar n = Some (t, v) /\ path n = p /\ k = join_str "." p /\ r = raw_of_value v.
Proof.
  unfold dump_entries. intros Hes Hin.
  pose proof (all_some_In _ _ _ Hes Hin) as H.
  apply in_map_iff in H as [[[p e] t] [Hd Hk]].
  apply (Permutation_in _ (serialize_entries_perm w types)) in Hk.
  unfold dump_entry in Hd.
  destruct (nth_node w e) as [n|] eqn:Hn; [|discriminate].
  destruct (scalar n) as [[t' v]|] eqn:Hs; [|discriminate].
  destruct (scalar_ty_eqb t t') eqn:Ht; [|discriminate].
  apply scalar_ty_eqb_true in Ht. subst t'. injection Hd as <- <-.
  destruct (keys_with_types_sound_ty _ _ _ _ _ Hk) as [n' [Hn' [Hp _]]].
  rewrite Hn in Hn'. injection Hn' as <-.
  exists p, e, t, n, v. repeat split; auto.
Qed.

End SerdeCoverage.

(** X1: for a registry without repeated types, the entries
    [serialize_all] writes are exactly the nodes holding a [ScalarData] of
    a registered type, each under its own path and each exactly once. *)
Theorem serialize_entries_exact w types :
  NoDup types ->
  (forall p e t, In (p, e, t) (serialize_entries w types) <->
     In t types /\ exists n v, nth_node w e = Some n /\ path n = p /\ scalar n = Some (t, v))
  /\ NoDup (map (fun k => snd (fst k)) (serialize_entries w types)).
Proof.
  intros Hnd. split.
  - intros p e t. rewrite <- keys_with_types_In. split; intros H.
    + eapply Permutation_in; [apply serialize_entries_perm|exact H].
    + eapply Permutation_in; [apply Permutation_sym, serialize_entries_perm|exact H].
  - eapply Permutation_NoDup.
    + apply Permutation_map. apply Permutation_sym, serialize_entries_perm.
    + apply keys_with_types_NoDup. exact Hnd.
Qed.

Lemma serialize_entries_exact_witness :
  NoDup example_types /\
  NoDup (map (fun k => snd (fst k)) (serialize_entries example_world example_types)).
Proof.
  assert (Hnd : NoDup example_types).
  { vm_compute.
    repeat (constructor; [intros Hin; repeat (destruct Hin as [Hin|Hin]; [discriminate|]); exact Hin|]).
    constructor. }
  split; [exact Hnd|].
  exact (proj2 (serialize_entries_exact example_world example_types Hnd)).
Defined.

(** X2: [Serde::serialize_all] never panics on a missing [ScalarData]:
    every scanned key has its component, so it always returns the compact
    object of the dumped entries (dotted path, value), in the sorted
    order. *)
Theorem serialize_all_total w types :
  exists es, dump_entries w types = Some es /\ serialize_all w types = Some (render_object es).
Proof.
  destruct (dump_entries w types) as [es|] eqn:Hes.
  - exists es. split; [reflexivity|]. rewrite serialize_all_dump, Hes. reflexivity.
  - exfalso. exact (dump_entries_total w types Hes).
Qed.

(* ------------------------------------------------------------------ *)
(** ** Decimal digits *)

Section DecimalDigits.

Lemma nat_ascii_digit d : d < 10 -> nat_of_ascii (ascii_of_nat (48 + d)) = 48 + d.
Proof. intros Hd. apply nat_ascii_embedding. lia. Qed.

Lemma parse_digits_cons a s acc :
  parse_digits (String a s) acc =
  (let n := nat_of_ascii a in
   if andb (Nat.leb 48 n) (Nat.leb n 57)
   then parse_digits s (acc * 10 + Z.of_nat (n - 48))%Z else None).
Proof. reflexivity. Qed.

Lemma parse_digits_digit d s acc :
  d < 10 -> parse_digits (String (ascii_of_nat (48 + d)) s) acc = parse_digits s (acc * 10 + Z.of_nat d)%Z.
Proof.
  intros Hd. rewrite parse_digits_cons. cbv zeta. rewrite nat_ascii_digit by exact Hd.
  replace (Nat.leb 48 (48 + d)) with true by (symmetry; apply Nat.leb_le; lia).
  replace (Nat.leb (48 + d) 57) with true by (symmetry; apply Nat.leb_le; lia).
  simpl andb. cbv iota. f_equal. f_equal. f_equal. lia.
Qed.

Lemma digits_of_nat_S fuel n acc :
  digits_of_nat (S fuel) n acc =
  if Nat.ltb n 10 then String (ascii_of_nat (48 + Nat.modulo n 10)) acc
  else digits_of_nat fuel (Nat.div n 10) (String (ascii_of_nat (48 + Nat.modulo n 10)) acc).
Proof. reflexivity. Qed.

(** Reading the decimal digits of [n] in front of [acc] continues from
    [n]. *)
Lemma parse_digits_of_nat fuel : forall n acc,
  n < fuel -> parse_digits (digits_of_nat fuel n acc) 0 = parse_digits acc (Z.of_nat n).
Proof.
  induction fuel as [|f IH]; intros n acc Hn; [lia|].
  rewrite digits_of_nat_S.
  pose proof (Nat.mod_upper_bound n 10 ltac:(lia)) as Hm.
  pose proof (Nat.div_mod n 10 ltac:(lia)) as Hdm.
  destruct (Nat.ltb n 10) eqn:Hlt.
  - apply Nat.ltb_lt in Hlt.
    rewrite parse_digits_digit by exact Hm. f_equal.
    rewrite Nat.mod_small by exact Hlt. lia.
  - apply Nat.ltb_ge in Hlt.
    rewrite IH by (apply Nat.lt_le_trans with n; [apply Nat.div_lt; lia|lia]).
    rewrite parse_digits_digit by exact Hm. f_equal. lia.
Qed.

Lemma digits_of_nat_head fuel : forall n acc,
  exists d s, digits_of_nat (S fuel) n acc = String (ascii_of_nat (48 + d)) s /\ d < 10.
Proof.
  induction fuel as [|f IH]; intros n acc; rewrite digits_of_nat_S;
    pose proof (Nat.mod_upper_bound n 10 ltac:(lia)) as Hm;
    destruct (Nat.ltb n 10).
  - eauto.
  - exists (Nat.modulo n 10), acc. split; [reflexivity|exact Hm].
  - eauto.
  - apply IH.
Qed.

End DecimalDigits.

(* ------------------------------------------------------------------ *)
(** ** What [deserialize] keeps for any input *)

Section DeserializeInvariant.

Lemma set_scalar_from_shape i e v ns :
  map node_shape (set_scalar_from i e v ns) = map node_shape ns.
Proof.
  revert i; induction ns as [|n ns IH]; intros i; simpl; [reflexivity|].
  destruct (Nat.eqb i e); simpl.
  - f_equal. unfold node_shape; simpl. destruct (scalar n) as [[t v']|]; reflexivity.
  - f_equal. apply IH.
Qed.

Lemma deserialize_map_value_shape w e t ts :
  map node_shape (fst (deserialize_map_value w e t ts)) = map node_shape w.
Proof.
  unfold deserialize_map_value.
  destruct (next_value ts) as [|[r ts']]; [reflexivity|].
  destruct (decode t r); [reflexivity|]. apply set_scalar_from_shape.
Qed.

Lemma visit_map_shape fuel idx first w ts :
  map node_shape (fst (visit_map fuel idx first w ts)) = map node_shape w.
Proof.
  revert first w ts; induction fuel as [|fuel IH]; intros first w ts; rewrite ?visit_map_S; [reflexivity|].
  destruct (next_key first ts) as [|[[k ts']|]]; try reflexivity.
  destruct (index_map_by_de_key idx k) as [[e t]|]; [|apply IH].
  pose proof (deserialize_map_value_shape w e t ts') as Hg.
  destruct (deserialize_map_value w e t ts') as [w' [|ts'']]; simpl in *; [exact Hg|].
  rewrite IH. exact Hg.
Qed.

(** What [serde_json::from_str] accepts for a type is a value of that
    type. *)
Lemma decode_fits t r v : decode t r = inr v -> value_fits t v = true.
Proof.
  destruct t, r; unfold decode; intros H; try discriminate.
  - destruct (parse_int text) as [z|]; [|discriminate].
    destruct (andb _ _) eqn:Hr; [|discriminate].
    injection H as <-. exact Hr.
  - injection H as <-. reflexivity.
  - injection H as <-. reflexivity.
  - unfold from_name in H. destruct (existsb (String.eqb s) ns) eqn:Hs; [|discriminate].
    injection H as <-. exact Hs.
  - unfold from_name in H. destruct (existsb (String.eqb s) ns) eqn:Hs; [|discriminate].
    injection H as <-. exact Hs.
Qed.

Lemma set_scalar_from_fits i e v ns :
  (forall j n t0 v0, i + j = e -> nth_error ns j = Some n -> scalar n = Some (t0, v0) ->
     value_fits t0 v = true) ->
  world_fits ns = true -> world_fits (set_scalar_from i e v ns) = true.
Proof.
  revert i; induction ns as [|n ns IH]; intros i Hv Hw; [reflexivity|].
  unfold world_fits in *. simpl in Hw |- *. apply andb_true_iff in Hw as [Hn Hw].
  destruct (Nat.eqb i e) eqn:Hi.
  - apply Nat.eqb_eq in Hi. simpl. apply andb_true_iff. split; [|exact Hw].
    destruct (scalar n) as [[t0 v0]|] eqn:Hs; [|reflexivity].
    apply (Hv 0 n t0 v0); [lia|reflexivity|exact Hs].
  - simpl. rewrite Hn. simpl. apply IH; [|exact Hw].
    intros j n0 t0 v0 Hj Hn0 Hs0. apply (Hv (S j) n0 t0 v0); [lia|exact Hn0|exact Hs0].
Qed.

Lemma shape_nth w w0 e n0 :
  map node_shape w = map node_shape w0 -> nth_node w0 e = Some n0 ->
  exists n, nth_node w e = Some n /\ option_map fst (scalar n) = option_map fst (scalar n0).
Proof.
  intros Hs Hn0. unfold nth_node in *.
  assert (H : nth_error (map node_shape w) e = Some (node_shape n0))
    by (rewrite Hs, nth_error_map, Hn0; reflexivity).
  rewrite nth_error_map in H.
  destruct (nth_error w e) as [n|] eqn:En; simpl in H; [|discriminate].
  assert (Hx : node_shape n = node_shape n0) by congruence.
  exists n. split; [reflexivity|]. exact (f_equal snd Hx).
Qed.

(** Every write [visit_map] makes goes to a node of the type the index
    gives, with a value [decode] accepted for that type. *)
Lemma visit_map_fits w0 types fuel : forall first w ts,
  map node_shape w = map node_shape w0 -> world_fits w = true ->
  world_fits (fst (visit_map fuel (build_index (keys_with_types w0 types)) first w ts)) = true.
Proof.
  induction fuel as [|fuel IH]; intros first w ts Hs Hw; rewrite ?visit_map_S; [exact Hw|].
  destruct (next_key first ts) as [|[[k ts']|]]; try exact Hw.
  destruct (index_map_by_de_key _ k) as [[e t]|] eqn:Hidx; [|apply IH; assumption].
  unfold index_map_by_de_key in Hidx. apply index_lookup_in in Hidx.
  unfold build_index in Hidx. apply in_map_iff in Hidx as [[[p e'] t'] [Heq Hk]].
  inversion Heq; subst p e' t'.
  destruct (keys_with_types_sound_ty _ _ _ _ _ Hk) as [n0 [Hn0 [_ [v0 Hv0]]]].
  destruct (shape_nth w w0 e n0 Hs Hn0) as [n [Hn Hty]]. rewrite Hv0 in Hty.
  unfold deserialize_map_value.
  destruct (next_value ts') as [err|[r ts'']]; [exact Hw|].
  destruct (decode t r) as [err|v] eqn:Hd; [exact Hw|].
  assert (Hw' : world_fits (set_scalar_value w e v) = true).
  { apply set_scalar_from_fits; [|exact Hw].
    intros j n1 t1 v1 Hj Hn1 Hs1. simpl in Hj. subst j.
    unfold nth_node in Hn. rewrite Hn in Hn1. injection Hn1 as <-.
    rewrite Hs1 in Hty. injection Hty as ->. exact (decode_fits t r v Hd). }
  apply IH; [|exact Hw'].
  unfold set_scalar_value. rewrite set_scalar_from_shape. exact Hs.
Qed.

End DeserializeInvariant.

(** X4: whatever the input and whether it succeeds, [Serde::deserialize]
    changes no node's path, generation, parent, relevance or scalar type,
    and neither adds nor removes nodes: it only rewrites [ScalarData]
    payloads. *)
Theorem deserialize_keeps_shape w types ts :
  map node_shape (fst (deserialize w types ts)) = map node_shape w.
Proof.
  unfold deserialize.
  destruct ts as [|t ts]; [reflexivity|].
  destruct t; try reflexivity.
  pose proof (visit_map_shape (length ts) (build_index (keys_with_types w types)) true w ts) as Hg.
  destruct (visit_map _ _ _ _ _) as [w' [|rest]]; exact Hg.
Qed.

(** X5: [Serde::deserialize] never stores an ill-typed value: if every
    stored value fits its type (an [i32] in range, a discriminant naming a
    variant of its type), the same holds after it, whatever the input and
    whether it succeeds, values written before a failure included. *)
Theorem deserialize_keeps_fits w types ts :
  world_fits w = true -> world_fits (fst (deserialize w types ts)) = true.
Proof.
  intros Hw. unfold deserialize.
  destruct ts as [|t ts]; [exact Hw|].
  destruct t; try exact Hw.
  pose proof (visit_map_fits w types (length ts) true w ts eq_refl Hw) as Hg.
  destruct (visit_map _ _ _ _ _) as [w' [|rest]]; exact Hg.
Qed.

Lemma deserialize_keeps_fits_witness :
  world_fits example_world = true /\
  world_fits (fst (deserialize example_world example_types
                     (json_object [("ui.thickness"%string, RNum "5");
                                   ("ui.color.discrim"%string, RStr "Blue")]))) = true.
Proof.
  assert (Hw : world_fits example_world = true) by (vm_compute; reflexivity).
  split; [exact Hw|]. apply deserialize_keeps_fits. exact Hw.
Defined.

(* ------------------------------------------------------------------ *)
(** ** Which sequences of registrations succeed *)

Section RegistrationRuns.

Lemma consistent_calls_nil : consistent_calls [].
Proof. split; [intros; contradiction|split; constructor]. Qed.

Lemma consistent_calls_app_inv calls x : consistent_calls (calls ++ [x]) -> consistent_calls calls.
Proof.
  intros [Hm [Hk Hc]]. rewrite map_app in Hk, Hc.
  split; [|split].
  - intros m c k m' c' k' H1 H2. apply (Hm m c k m' c' k'); apply in_or_app; left; assumption.
  - exact (NoDup_app_remove_r _ _ Hk).
  - exact (NoDup_app_remove_r _ _ Hc).
Qed.

Lemma NoDup_snoc_notin {A} (l : list A) x : NoDup (l ++ [x]) -> ~ In x l.
Proof. intros H. pose proof (NoDup_remove_2 l [] x H) as H'. rewrite app_nil_r in H'. exact H'. Qed.

Lemma NoDup_snoc {A} (l : list A) x : NoDup l -> ~ In x l -> NoDup (l ++ [x]).
Proof.
  intros Hl Hx. apply NoDup_app; [exact Hl|constructor; [intros []|constructor]|].
  intros a Ha [<-|[]]. contradiction.
Qed.

End RegistrationRuns.

(** X6: a sequence of [init_config_with::<M, C>(key)] calls on a fresh app
    runs without panicking if and only if all calls use one manager type
    and no key and no root type is registered twice. *)
Theorem registry_run_succeeds_iff calls :
  Registry.run calls <> None <-> consistent_calls calls.
Proof.
  induction calls as [|[[m c] k] calls IH] using rev_ind.
  - split; [intros _; exact consistent_calls_nil|intros _; discriminate].
  - unfold Registry.run. rewrite run_from_app. fold (Registry.run calls).
    destruct (Registry.run calls) as [a0|] eqn:H0.
    + assert (Hcons : consistent_calls calls) by (apply IH; discriminate).
      destruct (run_registered calls a0 H0) as [Hnil [Hall [Hkeys Hfields]]].
      destruct Hcons as [Hm [Hk Hc]].
      simpl. split.
      * intros Hsome.
        assert (Hi : Registry.init_config_with m c k a0 <> None)
          by (destruct (Registry.init_config_with m c k a0); [discriminate|exact Hsome]).
        rewrite init_config_with_None in Hi.
        split; [|split].
        -- assert (Hmm : forall m0 c0 k0, In (m0, c0, k0) calls -> m0 = m).
           { intros m0 c0 k0 Hin. pose proof (Hall m0 c0 k0 Hin) as Hma.
             destruct (string_dec m0 m) as [|Hne]; [assumption|].
             exfalso. apply Hi. left. exists m0. split; assumption. }
           intros m1 c1 k1 m2 c2 k2 H1 H2.
           apply in_app_or in H1 as [H1|[H1|[]]]; apply in_app_or in H2 as [H2|[H2|[]]].
           ++ exact (Hm _ _ _ _ _ _ H1 H2).
           ++ injection H2 as -> _ _. exact (Hmm _ _ _ H1).
           ++ injection H1 as -> _ _. symmetry. exact (Hmm _ _ _ H2).
           ++ injection H1 as -> _ _. injection H2 as -> _ _. reflexivity.
        -- rewrite map_app. apply NoDup_snoc; [exact Hk|].
           intros Hin. apply Hi. right. left. apply Hkeys. exact Hin.
        -- rewrite map_app. apply NoDup_snoc; [exact Hc|].
           intros Hin. apply Hi. right. right. apply Hfields. exact Hin.
      * intros [Hm' [Hk' Hc']]. rewrite map_app in Hk', Hc'.
        destruct (Registry.init_config_with m c k a0) as [a1|] eqn:H1; [discriminate|].
        exfalso. apply init_config_with_None in H1 as [[id [Hid Hne]]|[Hin|Hin]].
        -- destruct calls as [|[[m0 c0] k0] calls'].
           ++ rewrite Hnil in Hid; [discriminate|reflexivity].
           ++ rewrite (Hall m0 c0 k0 (or_introl eq_refl)) in Hid. injection Hid as <-.
              apply Hne. apply (Hm' m0 c0 k0 m c k).
              ** left. reflexivity.
              ** apply in_or_app. right. left. reflexivity.
        -- apply (NoDup_snoc_notin _ _ Hk'). apply Hkeys. exact Hin.
        -- apply (NoDup_snoc_notin _ _ Hc'). apply Hfields. exact Hin.
    + simpl. split; [intros H; contradiction|].
      intros Hcons. apply consistent_calls_app_inv in Hcons. apply IH in Hcons. contradiction.
Qed.

(* ------------------------------------------------------------------ *)
(** ** [consume_change] compares witnesses with their [PartialEq] *)

Section ConsumeChange.

Lemma witness_ind' (P : witness -> Prop)
  (Hg : forall g, P (WGen g))
  (Hs : forall fs, Forall P fs -> P (WStruct fs))
  (Hv : forall v fs, Forall P fs -> P (WVariant v fs)) : forall c, P c.
Proof.
  fix IH 1. intros [g|fs|v fs]; [apply Hg|apply Hs|apply Hv];
    revert fs; fix go 1; intros [|c fs]; constructor; [apply IH|apply go|apply IH|apply go].
Qed.

(** The derived [PartialEq] is equality. *)
Lemma witness_eqb_eq a : forall b, witness_eqb a b = true <-> a = b.
Proof.
  induction a as [g|fs IH|v fs IH] using witness_ind'; intros [g'|fs'|v' fs']; simpl;
    try (split; [discriminate|intros H; discriminate H]).
  - rewrite Z.eqb_eq. split; [intros ->|intros H; injection H as ->]; reflexivity.
  - revert fs'. induction IH as [|x l Hx Hl IHl]; intros [|y l'].
    + split; reflexivity.
    + split; [discriminate|intros H; discriminate H].
    + split; [discriminate|intros H; discriminate H].
    + simpl. rewrite andb_true_iff, Hx, IHl.
      split; [intros [-> H]; injection H as ->; reflexivity|].
      intros H; injection H as -> ->. split; reflexivity.
  - rewrite andb_true_iff, String.eqb_eq.
    assert (L : forall l', (fix list_eqb (l1 l2 : list witness) : bool :=
                             match l1, l2 with
                             | [], [] => true
                             | x :: l1', y :: l2' => witness_eqb x y && list_eqb l1' l2'
                             | _, _ => false
                             end) fs l' = true <-> fs = l').
    { induction IH as [|x l Hx Hl IHl]; intros [|y l'].
      - split; reflexivity.
      - split; [discriminate|intros H; discriminate H].
      - split; [discriminate|intros H; discriminate H].
      - simpl. rewrite andb_true_iff, Hx, IHl.
        split; [intros [-> ->]; reflexivity|intros H; injection H as -> ->; split; reflexivity]. }
    rewrite L. split; [intros [-> ->]; reflexivity|intros H; injection H as -> ->; split; reflexivity].
Qed.

End ConsumeChange.

(** X7: when [ReadConfig::changed] gives the witness [c],
    [consume_change] stores [c] in its [Local] and reports [true] exactly
    when the stored witness is not equal to [c] (an empty state included),
    so an immediate second call reports [false]. *)
Theorem consume_change_reports_difference f w h last c :
  read_config_changed f w h = Some c ->
  exists b, consume_change f w h last = Some (b, Some c) /\ (b = false <-> last = Some c).
Proof.
  intros Hc. unfold consume_change. rewrite Hc.
  destruct last as [v|].
  - destruct (witness_eqb v c) eqn:E.
    + apply witness_eqb_eq in E. subst v. exists false. split; [reflexivity|tauto].
    + exists true. split; [reflexivity|].
      split; [discriminate|]. intros H. injection H as ->.
      rewrite (proj2 (witness_eqb_eq c c) eq_refl) in E. discriminate.
  - exists true. split; [reflexivity|]. split; discriminate.
Qed.

Lemma consume_change_reports_difference_witness :
  read_config_changed Rgba (snd (fst (spawn_world [] [] (root_ctx "c") Rgba)))
    (snd (spawn_world [] [] (root_ctx "c") Rgba)) = Some (WStruct [WGen 1; WGen 1; WGen 1; WGen 1]) /\
  exists b, consume_change Rgba (snd (fst (spawn_world [] [] (root_ctx "c") Rgba)))
              (snd (spawn_world [] [] (root_ctx "c") Rgba)) (Some (WStruct [WGen 1; WGen 1; WGen 1; WGen 1]))
            = Some (b, Some (WStruct [WGen 1; WGen 1; WGen 1; WGen 1]))
    /\ (b = false <-> Some (WStruct [WGen 1; WGen 1; WGen 1; WGen 1])
                      = Some (WStruct [WGen 1; WGen 1; WGen 1; WGen 1])).
Proof.
  assert (Hc : read_config_changed Rgba (snd (fst (spawn_world [] [] (root_ctx "c") Rgba)))
                 (snd (spawn_world [] [] (root_ctx "c") Rgba))
               = Some (WStruct [WGen 1; WGen 1; WGen 1; WGen 1])) by (vm_compute; reflexivity).
  split; [exact Hc|].
  exact (consume_change_reports_difference _ _ _ _ _ Hc).
Defined.

(* ------------------------------------------------------------------ *)
(** ** The [i32] text editor *)

Section NumberEditor.

Lemma ascii_digit_neq d c :
  d < 10 -> nat_of_ascii c < 48 -> Ascii.eqb (ascii_of_nat (48 + d)) c = false.
Proof.
  intros Hd Hc. destruct (Ascii.eqb _ _) eqn:E; [|reflexivity].
  apply Ascii.eqb_eq in E. apply (f_equal nat_of_ascii) in E.
  rewrite nat_ascii_digit in E by exact Hd. lia.
Qed.

Lemma i32_range_andb z :
  (i32_min <= z <= i32_max)%Z -> andb (i32_min <=? z)%Z (z <=? i32_max)%Z = true.
Proof. intros [H1 H2]. apply andb_true_iff. split; apply Z.leb_le; assumption. Qed.

(** [to_string] and [parse_from_str] are inverse on [i32]. *)
Lemma parse_i32_string_of_Z z : (i32_min <= z <= i32_max)%Z -> parse_i32 (string_of_Z z) = Some z.
Proof.
  intros Hz. destruct z as [|p|p]; [reflexivity| |].
  - destruct (digits_of_nat_head (Pos.to_nat p) (Pos.to_nat p) EmptyString) as [d [s [Hs Hd]]].
    pose proof (parse_digits_of_nat (S (Pos.to_nat p)) (Pos.to_nat p) EmptyString
                  (Nat.lt_succ_diag_r _)) as H.
    unfold parse_i32, string_of_Z. rewrite Hs. rewrite Hs in H.
    rewrite !ascii_digit_neq by (exact Hd || (vm_compute; lia)).
    match goal with |- context [parse_digits ?x ?y] =>
      replace (parse_digits x y) with (Some (Z.pos p))
        by (symmetry; etransitivity; [exact H|cbn [parse_digits]; rewrite positive_nat_Z; reflexivity])
    end.
    cbv iota. rewrite i32_range_andb by exact Hz.
    reflexivity.
  - destruct (digits_of_nat_head (Pos.to_nat p) (Pos.to_nat p) EmptyString) as [d [s [Hs Hd]]].
    pose proof (parse_digits_of_nat (S (Pos.to_nat p)) (Pos.to_nat p) EmptyString
                  (Nat.lt_succ_diag_r _)) as H.
    unfold parse_i32, string_of_Z. rewrite Hs. rewrite Hs in H. cbn [append].
    change (Ascii.eqb "-" "+")%char with false. rewrite Ascii.eqb_refl. cbv iota beta.
    match goal with |- context [parse_digits ?x ?y] =>
      replace (parse_digits x y) with (Some (Z.pos p))
        by (symmetry; etransitivity; [exact H|cbn [parse_digits]; rewrite positive_nat_Z; reflexivity])
    end.
    cbv iota beta. change (- Z.pos p)%Z with (Z.neg p). rewrite i32_range_andb by exact Hz.
    reflexivity.
Qed.

Lemma parse_i32_range s z : parse_i32 s = Some z -> (i32_min <= z <= i32_max)%Z.
Proof.
  unfold parse_i32. intros H.
  destruct s as [|a rest]; [discriminate|].
  destruct (Ascii.eqb a "+"%char), (Ascii.eqb a "-"%char);
    repeat match type of H with
    | context [match ?x with EmptyString => _ | String _ _ => _ end] => destruct x
    | context [match parse_digits ?s ?a with Some _ => _ | None => _ end] =>
        destruct (parse_digits s a)
    | context [if ?b then Some _ else None] => destruct b eqn:?
    end; try discriminate;
    injection H as <-; apply andb_true_iff in Heqb; destruct Heqb as [H1 H2];
    apply Z.leb_le in H1, H2; lia.
Qed.

Lemma u32_of_usize_range n : (0 <= u32_of_usize n <= u32_max)%Z.
Proof. unfold u32_of_usize. destruct (Z.of_nat n <=? u32_max)%Z eqn:E; [apply Z.leb_le in E|]; unfold u32_max in *; lia. Qed.

Lemma saturating_add_unsigned_min v n :
  (i32_min <= v)%Z -> saturating_add_unsigned v (u32_of_usize n) = Z.min (v + Z.of_nat n) i32_max.
Proof.
  intros Hv. unfold saturating_add_unsigned, u32_of_usize.
  destruct (Z.of_nat n <=? u32_max)%Z eqn:E; [apply Z.leb_le in E|apply Z.leb_gt in E];
    destruct (i32_max <? _)%Z eqn:F; try apply Z.ltb_lt in F; try apply Z.ltb_ge in F;
    unfold i32_min, i32_max, u32_max in *; lia.
Qed.

Lemma saturating_sub_unsigned_max v n :
  (v <= i32_max)%Z -> saturating_sub_unsigned v (u32_of_usize n) = Z.max (v - Z.of_nat n) i32_min.
Proof.
  intros Hv. unfold saturating_sub_unsigned, u32_of_usize.
  destruct (Z.of_nat n <=? u32_max)%Z eqn:E; [apply Z.leb_le in E|apply Z.leb_gt in E];
    destruct (_ <? i32_min)%Z eqn:F; try apply Z.ltb_lt in F; try apply Z.ltb_ge in F;
    unfold i32_min, i32_max, u32_max in *; lia.
Qed.

Lemma saturating_add_unsigned_range v u :
  (i32_min <= v <= i32_max)%Z -> (0 <= u)%Z -> (i32_min <= saturating_add_unsigned v u <= i32_max)%Z.
Proof.
  intros Hv Hu. unfold saturating_add_unsigned.
  destruct (i32_max <? v + u)%Z eqn:F; [apply Z.ltb_lt in F|apply Z.ltb_ge in F];
    unfold i32_min, i32_max in *; lia.
Qed.

Lemma saturating_sub_unsigned_range v u :
  (i32_min <= v <= i32_max)%Z -> (0 <= u)%Z -> (i32_min <= saturating_sub_unsigned v u <= i32_max)%Z.
Proof.
  intros Hv Hu. unfold saturating_sub_unsigned.
  destruct (v - u <? i32_min)%Z eqn:F; [apply Z.ltb_lt in F|apply Z.ltb_ge in F];
    unfold i32_min, i32_max in *; lia.
Qed.

(** Without a changed response the value is the one shown. *)
Lemma show_i32_text_unchanged md v temp fr :
  snd (show_i32_text md v temp fr) = false -> fst (fst (show_i32_text md v temp fr)) = v.
Proof.
  unfold show_i32_text.
  destruct (typed fr) as [s|].
  - destruct (parse_i32 s); [simpl; discriminate|].
    destruct (has_focus fr); [|simpl; discriminate].
    destruct (up_presses fr), (down_presses fr); simpl; discriminate.
  - destruct (has_focus fr); [|simpl; reflexivity].
    destruct (up_presses fr), (down_presses fr); simpl; [reflexivity|discriminate..].
Qed.

End NumberEditor.

(** X8: [i32]'s [to_string] and [parse_from_str] ([str::parse]) are
    inverse: the text the editor shows for a value parses back to it. *)
Theorem parse_i32_to_string z :
  (i32_min <= z <= i32_max)%Z -> parse_i32 (string_of_Z z) = Some z.
Proof. apply parse_i32_string_of_Z. Qed.

Lemma parse_i32_to_string_witness :
  (i32_min <= -2147483648 <= i32_max)%Z /\ parse_i32 (string_of_Z (-2147483648)) = Some (-2147483648)%Z.
Proof.
  assert (H : (i32_min <= -2147483648 <= i32_max)%Z) by (unfold i32_min, i32_max; lia).
  split; [exact H|]. exact (parse_i32_to_string _ H).
Defined.

(** X9: a text edit that parses is committed clamped to the metadata
    bounds: the response is changed and, when [min <= max], the stored
    value lies in [[min, max]] and is the parsed number itself when that
    is in range. *)
Theorem show_i32_text_clamps md v temp fr s p :
  typed fr = Some s -> parse_i32 s = Some p -> (nm_min md <= nm_max md)%Z ->
  snd (show_i32_text md v temp fr) = true
  /\ (nm_min md <= fst (fst (show_i32_text md v temp fr)) <= nm_max md)%Z
  /\ ((nm_min md <= p <= nm_max md)%Z -> fst (fst (show_i32_text md v temp fr)) = p).
Proof.
  intros Ht Hp Hle. unfold show_i32_text. rewrite Ht, Hp. simpl.
  destruct (p <? nm_min md)%Z eqn:E1; [apply Z.ltb_lt in E1|apply Z.ltb_ge in E1].
  - destruct (nm_max md <? nm_min md)%Z eqn:E2; [apply Z.ltb_lt in E2; lia|apply Z.ltb_ge in E2].
    destruct (lost_focus fr); simpl; repeat split; lia.
  - destruct (nm_max md <? p)%Z eqn:E2; [apply Z.ltb_lt in E2|apply Z.ltb_ge in E2];
      destruct (lost_focus fr); simpl; repeat split; lia.
Qed.

Lemma show_i32_text_clamps_witness :
  typed {| typed := Some "42"%string; has_focus := true; up_presses := 0; down_presses := 0;
           lost_focus := false |} = Some "42"%string /\
  parse_i32 "42" = Some 42%Z /\
  (nm_min {| nm_min := 0; nm_max := 10; nm_slider := false |}
   <= nm_max {| nm_min := 0; nm_max := 10; nm_slider := false |})%Z /\
  snd (show_i32_text {| nm_min := 0; nm_max := 10; nm_slider := false |} 5 None
         {| typed := Some "42"%string; has_focus := true; up_presses := 0; down_presses := 0;
            lost_focus := false |}) = true.
Proof.
  assert (Ht : typed {| typed := Some "42"%string; has_focus := true; up_presses := 0;
                        down_presses := 0; lost_focus := false |} = Some "42"%string) by reflexivity.
  assert (Hp : parse_i32 "42" = Some 42%Z) by (vm_compute; reflexivity).
  assert (Hle : (nm_min {| nm_min := 0; nm_max := 10; nm_slider := false |}
                 <= nm_max {| nm_min := 0; nm_max := 10; nm_slider := false |})%Z) by (simpl; lia).
  split; [exact Ht|split; [exact Hp|split; [exact Hle|]]].
  exact (proj1 (show_i32_text_clamps _ 5 None _ _ _ Ht Hp Hle)).
Defined.

(** X10: the arrow keys bypass the metadata bounds: with the focus and
    no typed edit, [n] [ArrowUp] presses give [min(v + n, i32::MAX)] and
    [n] [ArrowDown] presses give [max(v - n, i32::MIN)], whatever [min]
    and [max] are; the response is changed and the shown text is the new
    value (dropped when the focus is lost). *)
Theorem show_i32_arrows_ignore_bounds md v temp n l :
  (i32_min <= v <= i32_max)%Z ->
  show_i32_text md v temp {| typed := None; has_focus := true; up_presses := S n;
                             down_presses := 0; lost_focus := l |}
  = (Z.min (v + Z.of_nat (S n)) i32_max,
     if l then None else Some (string_of_Z (Z.min (v + Z.of_nat (S n)) i32_max)), true)
  /\ show_i32_text md v temp {| typed := None; has_focus := true; up_presses := 0;
                                down_presses := S n; lost_focus := l |}
  = (Z.max (v - Z.of_nat (S n)) i32_min,
     if l then None else Some (string_of_Z (Z.max (v - Z.of_nat (S n)) i32_min)), true).
Proof.
  intros [Hlo Hhi]. unfold show_i32_text. simpl.
  rewrite saturating_add_unsigned_min by exact Hlo.
  rewrite saturating_sub_unsigned_max by exact Hhi.
  split; reflexivity.
Qed.

Lemma show_i32_arrows_ignore_bounds_witness :
  (i32_min <= 9 <= i32_max)%Z /\
  fst (fst (show_i32_text {| nm_min := 0; nm_max := 10; nm_slider := false |} 9 None
              {| typed := None; has_focus := true; up_presses := 5; down_presses := 0;
                 lost_focus := false |})) = 14%Z.
Proof.
  assert (H : (i32_min <= 9 <= i32_max)%Z) by (unfold i32_min, i32_max; lia).
  split; [exact H|].
  rewrite (proj1 (show_i32_arrows_ignore_bounds {| nm_min := 0; nm_max := 10; nm_slider := false |}
                    9 None 4 false H)).
  reflexivity.
Defined.

(** X11: with [i32] bounds, the editor never stores a value out of the
    [i32] range, whatever the frame's input. *)
Theorem show_i32_text_in_range md v temp fr :
  (i32_min <= v <= i32_max)%Z -> (i32_min <= nm_min md <= i32_max)%Z ->
  (i32_min <= nm_max md <= i32_max)%Z ->
  (i32_min <= fst (fst (show_i32_text md v temp fr)) <= i32_max)%Z.
Proof.
  intros Hv Hmin Hmax. unfold show_i32_text.
  destruct (typed fr) as [s|]; [destruct (parse_i32 s) as [p|] eqn:Hp|].
  - apply parse_i32_range in Hp.
    destruct (p <? nm_min md)%Z, (nm_max md <? _)%Z, (lost_focus fr); simpl; lia.
  - destruct (has_focus fr), (up_presses fr), (down_presses fr), (lost_focus fr); simpl;
      repeat first [ exact Hv | apply saturating_sub_unsigned_range | apply saturating_add_unsigned_range
                   | apply u32_of_usize_range ].
  - destruct (has_focus fr), (up_presses fr), (down_presses fr), (lost_focus fr); simpl;
      repeat first [ exact Hv | apply saturating_sub_unsigned_range | apply saturating_add_unsigned_range
                   | apply u32_of_usize_range ].
Qed.

Lemma show_i32_text_in_range_witness :
  (i32_min <= 2147483640 <= i32_max)%Z /\
  (i32_min <= nm_min {| nm_min := 0; nm_max := 10; nm_slider := false |} <= i32_max)%Z /\
  (i32_min <= nm_max {| nm_min := 0; nm_max := 10; nm_slider := false |} <= i32_max)%Z /\
  (i32_min <= fst (fst (show_i32_text {| nm_min := 0; nm_max := 10; nm_slider := false |}
                          2147483640 None
                          {| typed := None; has_focus := true; up_presses := 100%nat;
                             down_presses := 0%nat; lost_focus := false |})) <= i32_max)%Z.
Proof.
  assert (Hv : (i32_min <= 2147483640 <= i32_max)%Z) by (unfold i32_min, i32_max; lia).
  assert (Hmin : (i32_min <= nm_min {| nm_min := 0; nm_max := 10; nm_slider := false |} <= i32_max)%Z)
    by (simpl; unfold i32_min, i32_max; lia).
  assert (Hmax : (i32_min <= nm_max {| nm_min := 0; nm_max := 10; nm_slider := false |} <= i32_max)%Z)
    by (simpl; unfold i32_min, i32_max; lia).
  split; [exact Hv|split; [exact Hmin|split; [exact Hmax|]]].
  exact (show_i32_text_in_range _ _ None _ Hv Hmin Hmax).
Defined.

(** X12: the egui [draw_fn] of an [i32] field, in slider and in text
    mode, keeps its node's path, parent and relevance; either it keeps
    both the generation and the value, or it bumps the generation by
    exactly one ([FieldGeneration::next]). *)
Theorem draw_i32_bumps_on_change md n temp fr sl n' temp' :
  draw_i32 md n temp fr sl = Some (n', temp') ->
  path n' = path n /\ parent n' = parent n /\ dep n' = dep n
  /\ ((generation n' = generation n /\ scalar n' = scalar n)
      \/ generation n' = (generation n + 1)%Z).
Proof.
  unfold draw_i32. intros H.
  destruct (path n) as [|seg segs] eqn:Hpath; [discriminate|].
  destruct (scalar n) as [[[] [v| | |]]|] eqn:Hs; try discriminate.
  assert (Hu : forall v' t' ch,
             (if nm_slider md
              then let '(v', changed) := show_i32_slider v sl in (v', temp, changed)
              else show_i32_text md v temp fr) = (v', t', ch) -> ch = false -> v' = v).
  { intros v' t' ch E Hch. destruct (nm_slider md).
    - destruct sl as [x|]; simpl in E; injection E as <- _ <-; [discriminate | reflexivity].
    - pose proof (show_i32_text_unchanged md v temp fr) as Hu. rewrite E in Hu. exact (Hu Hch). }
  destruct (if nm_slider md
            then let '(v', changed) := show_i32_slider v sl in (v', temp, changed)
            else show_i32_text md v temp fr) as [[v' t'] ch] eqn:Hshow.
  specialize (Hu v' t' ch eq_refl).
  destruct ch.
  - destruct (generation_next (generation n)) as [g|] eqn:Hg; [|discriminate].
    injection H as <- <-. simpl.
    split; [reflexivity|split; [reflexivity|split; [reflexivity|]]].
    right. exact (generation_next_succ _ _ Hg).
  - injection H as <- <-. simpl. rewrite (Hu eq_refl).
    split; [reflexivity|split; [reflexivity|split; [reflexivity|]]].
    left. split; reflexivity.
Qed.

Lemma draw_i32_bumps_on_change_witness :
  draw_i32 {| nm_min := 0; nm_max := 10; nm_slider := true |} thickness_node None
    {| typed := None; has_focus := false; up_presses := 0; down_presses := 0;
       lost_focus := false |} (Some 7%Z)
  = Some ({| path := ["ui"; "thickness"]%string; generation := 2; parent := Some 0; dep := None;
             scalar := Some (TyI32, VI32 7) |}, None) /\
  generation {| path := ["ui"; "thickness"]%string; generation := 2; parent := Some 0; dep := None;
                scalar := Some (TyI32, VI32 7) |} = (generation thickness_node + 1)%Z.
Proof.
  assert (H : draw_i32 {| nm_min := 0; nm_max := 10; nm_slider := true |} thickness_node None
    {| typed := None; has_focus := false; up_presses := 0; down_presses := 0;
       lost_focus := false |} (Some 7%Z)
    = Some ({| path := ["ui"; "thickness"]%string; generation := 2; parent := Some 0; dep := None;
               scalar := Some (TyI32, VI32 7) |}, None)) by (vm_compute; reflexivity).
  split; [exact H|].
  destruct (proj2 (proj2 (proj2 (draw_i32_bumps_on_change _ _ _ _ _ _ _ H)))) as [[_ Hsc]|Hg].
  - vm_compute in Hsc. discriminate.
  - exact Hg.
Defined.

(** X13: a typed text that does not parse as an [i32] ([""], ["-"],
    ["12a"], an out-of-range number) leaves the value as it was, keeps the
    text in [TempData] while the field has the focus, and still bumps the
    generation: [ReadConfig::changed] then reports a change although no
    value changed. *)
Theorem draw_i32_unparsable_bumps md n v temp fr s :
  path n <> [] -> scalar n = Some (TyI32, VI32 v) ->
  typed fr = Some s -> parse_i32 s = None ->
  up_presses fr = 0 -> down_presses fr = 0 -> (generation n + 1 < 2 ^ 64)%Z ->
  draw_i32_text md n temp fr
  = Some ({| path := path n; generation := generation n + 1; parent := parent n; dep := dep n;
             scalar := scalar n |}, if lost_focus fr then None else Some s).
Proof.
  intros Hp Hs Ht Hnp Hu Hd Hg.
  unfold draw_i32_text, show_i32_text.
  destruct (path n) as [|seg segs] eqn:Hpath; [contradiction|].
  rewrite Hs, Ht, Hnp, Hu, Hd. simpl.
  unfold generation_next. rewrite (proj2 (Z.ltb_lt _ _) Hg).
  destruct (has_focus fr), (lost_focus fr); reflexivity.
Qed.

Lemma draw_i32_unparsable_bumps_witness :
  draw_i32_text {| nm_min := 0; nm_max := 10; nm_slider := false |} thickness_node None
    {| typed := Some "-"%string; has_focus := true; up_presses := 0; down_presses := 0;
       lost_focus := false |}
  = Some ({| path := ["ui"; "thickness"]%string; generation := 2; parent := Some 0; dep := None;
             scalar := Some (TyI32, VI32 3) |}, Some "-"%string).
Proof.
  rewrite (draw_i32_unparsable_bumps _ thickness_node 3 None _ "-"%string);
    [reflexivity|discriminate|reflexivity|reflexivity|vm_compute; reflexivity|reflexivity|reflexivity|].
  vm_compute. reflexivity.
Defined.

(* ------------------------------------------------------------------ *)
(** ** Invariants of [spawn_world] *)

Section SpawnInvariants.

Lemma field_ty_ind' (P : field_ty -> Prop)
  (Hs : forall t d, P (FScalar t d))
  (Hst : forall fs, Forall (fun kf => P (snd kf)) fs -> P (FStruct fs))
  (He : forall d vs, Forall (fun v => Forall (fun kf => P (snd kf)) (snd v)) vs -> P (FEnum d vs)) :
  forall f, P f.
Proof.
  refine (fix IH (f : field_ty) : P f := _).
  destruct f as [t d | fs | d vs].
  - apply Hs.
  - apply Hst. revert fs. refine (fix go (fs : list (string * field_ty)) := _).
    destruct fs as [|[k ft] fs]; constructor; [apply IH | apply go].
  - apply He. revert vs. refine (fix gov (vs : list (string * list (string * field_ty))) := _).
    destruct vs as [|[vn fs] vs]; constructor; [| apply gov].
    simpl. revert fs. refine (fix go (fs : list (string * field_ty)) := _).
    destruct fs as [|[k ft] fs]; constructor; [apply IH | apply go].
Qed.

Lemma register_incl r t : incl r (register r t).
Proof. unfold register. destruct (existsb _ r); [apply incl_refl | apply incl_appl, incl_refl]. Qed.

Lemma register_In r t : In t (register r t).
Proof.
  unfold register. destruct (existsb (scalar_ty_eqb t) r) eqn:E.
  - apply existsb_exists in E as [x [Hx Hq]]. unfold scalar_ty_eqb in Hq.
    destruct (scalar_ty_eq_dec t x); [subst; exact Hx | discriminate].
  - apply in_or_app. right. left. reflexivity.
Qed.

Lemma register_NoDup r t : NoDup r -> NoDup (register r t).
Proof.
  intros Hr. unfold register. destruct (existsb (scalar_ty_eqb t) r) eqn:E; [exact Hr|].
  apply Permutation.Permutation_NoDup with (t :: r); [apply Permutation.Permutation_cons_append|].
  constructor; [|exact Hr]. intros Hin.
  assert (Hx : existsb (scalar_ty_eqb t) r = true).
  { apply existsb_exists. exists t. split; [exact Hin|]. unfold scalar_ty_eqb.
    destruct (scalar_ty_eq_dec t t); [reflexivity | contradiction]. }
  congruence.
Qed.

Lemma nth_error_prefix (w e : world) j m : nth_error w j = Some m -> nth_error (w ++ e) j = Some m.
Proof. intros H. rewrite nth_error_app1; [exact H | apply nth_error_Some; congruence]. Qed.

Lemma dep_on_discrim_mono b b' i w w' d :
  dep_on_discrim b' i w d -> b <= b' -> (exists e, w' = w ++ e) -> dep_on_discrim b i w' d.
Proof.
  intros [j [vn [dn [ns [v0 [m [Hd [Hj [Hm [Hs Hin]]]]]]]]]] Hb [e ->].
  exists j, vn, dn, ns, v0, m. repeat split; try lia; auto. apply nth_error_prefix; exact Hm.
Qed.

Lemma spawned_node_lift b b' c c' r r' w w' i n :
  spawned_node b' c' r w i n -> b <= b' -> (exists e, w' = w ++ e) -> incl r r' ->
  ctx_within b c c' i w' -> spawned_node b c r' w' i n.
Proof.
  intros [Hg [[s Hp] [Hs [Hpar Hdep]]]] Hb Hw Hr [[s0 Hcp] [Hcpar Hcdep]].
  split; [exact Hg|]. split; [exists (s0 ++ s); rewrite Hp, Hcp, app_assoc; reflexivity|].
  split; [intros t v H; apply Hr; exact (Hs t v H)|]. split.
  - destruct Hpar as [Hpar | [j [Hj Hpar]]].
    + rewrite Hpar. destruct Hcpar as [Hc | [j [Hj Hc]]]; [left; exact Hc | right; exists j; auto].
    + right. exists j. split; [lia | exact Hpar].
  - destruct Hdep as [Hd | [Hd | Hd]].
    + rewrite Hd. destruct Hcdep as [Hc | [Hc | Hc]]; [left | right; left | right; right]; exact Hc.
    + right. left. exact Hd.
    + right. right. exact (dep_on_discrim_mono _ _ _ _ _ _ Hd Hb Hw).
Qed.

Lemma ctx_within_refl b c i w : ctx_within b c c i w.
Proof.
  split; [exists []; rewrite app_nil_r; reflexivity|]. split; [left; reflexivity | left; reflexivity].
Qed.

Lemma spawn_inv_refl b c r w : spawn_inv b c r w r w.
Proof.
  split; [exists []; rewrite app_nil_r; reflexivity|]. split; [apply incl_refl|]. split; [auto|].
  intros i n Hi Hn. assert (i < length w) by (apply nth_error_Some; congruence). lia.
Qed.

Lemma spawn_inv_trans b c r1 w1 r2 w2 r3 w3 :
  spawn_inv b c r1 w1 r2 w2 -> spawn_inv b c r2 w2 r3 w3 -> spawn_inv b c r1 w1 r3 w3.
Proof.
  intros [[e2 ->] [Hi2 [Hn2 H2]]] [[e3 ->] [Hi3 [Hn3 H3]]].
  split; [exists (e2 ++ e3); rewrite app_assoc; reflexivity|].
  split; [exact (incl_tran Hi2 Hi3)|]. split; [auto|].
  intros i n Hi Hn. destruct (Nat.lt_ge_cases i (length (w1 ++ e2))) as [Hlt | Hge].
  - rewrite nth_error_app1 in Hn by exact Hlt.
    apply spawned_node_lift with b c r2 (w1 ++ e2); [exact (H2 i n Hi Hn) | lia | exists e3; reflexivity
      | exact Hi3 | apply ctx_within_refl].
  - exact (H3 i n Hge Hn).
Qed.

Lemma spawn_loop_inv
  (go : registry -> world -> list (string * field_ty) -> registry * world * list handle)
  (ctxk : string -> spawn_ctx) (base : nat) (c : spawn_ctx) (w0 : world)
  (Hnil : forall r w, go r w [] = (r, w, []))
  (Hcons : forall r w k ft fs, go r w ((k, ft) :: fs) =
     let '(r, w, h) := spawn_world r w (ctxk k) ft in
     let '(r, w, hs) := go r w fs in (r, w, h :: hs))
  (Hctx : forall k i w', length w0 <= i -> (exists e, w' = w0 ++ e) -> ctx_within base c (ctxk k) i w')
  (Hb : base <= length w0) fs
  (HF : Forall (fun kf => forall r w c r' w' h, spawn_world r w c (snd kf) = (r', w', h) ->
                  spawn_inv (length w) c r w r' w') fs) :
  forall r1 w1 r2 w2 hs, (exists e, w1 = w0 ++ e) -> go r1 w1 fs = (r2, w2, hs) ->
  spawn_inv base c r1 w1 r2 w2.
Proof.
  induction HF as [|[k ft] fs Hk HF IH]; intros r1 w1 r2 w2 hs Hw1 Hgo.
  - rewrite Hnil in Hgo. injection Hgo as <- <- _. apply spawn_inv_refl.
  - rewrite Hcons in Hgo.
    destruct (spawn_world r1 w1 (ctxk k) ft) as [[rk wk] hk] eqn:Hs.
    destruct (go rk wk fs) as [[r3 w3] hs3] eqn:Hg. injection Hgo as <- <- _.
    pose proof (Hk _ _ _ _ _ _ Hs) as Hinv.
    destruct Hw1 as [e1 ->].
    apply spawn_inv_trans with rk wk.
    + destruct Hinv as [[ek ->] [Hik [Hndk Hnk]]].
      split; [exists ek; reflexivity|]. split; [exact Hik|]. split; [exact Hndk|].
      intros i n Hi Hn.
      apply spawned_node_lift with (length (w0 ++ e1)) (ctxk k) rk ((w0 ++ e1) ++ ek);
        [exact (Hnk i n Hi Hn) | rewrite length_app in *; lia | exists []; rewrite app_nil_r; reflexivity
        | apply incl_refl |].
      apply Hctx; [rewrite length_app in Hi; lia | exists (e1 ++ ek); rewrite !app_assoc; reflexivity].
    + destruct Hinv as [[ek ->] _]. apply (IH rk ((w0 ++ e1) ++ ek) r3 w3 hs3); [|exact Hg].
      exists (e1 ++ ek). rewrite app_assoc. reflexivity.
Qed.

Lemma spawn_variants_inv
  (gv : registry -> world -> list (string * list (string * field_ty)) ->
        registry * world * list (string * list handle))
  (gf : registry -> world -> string -> list (string * field_ty) -> registry * world * list handle)
  (base : nat) (c : spawn_ctx) (wd : world) (vsAll : list (string * list (string * field_ty)))
  (Hvnil : forall r w, gv r w [] = (r, w, []))
  (Hvcons : forall r w vn fs vs, gv r w ((vn, fs) :: vs) =
     let '(r, w, hs) := gf r w vn fs in
     let '(r, w, hvs) := gv r w vs in (r, w, (vn, hs) :: hvs))
  (Hf : forall vn fs r1 w1 r2 w2 hs, In (vn, fs) vsAll -> (exists e, w1 = wd ++ e) ->
          gf r1 w1 vn fs = (r2, w2, hs) -> spawn_inv base c r1 w1 r2 w2) :
  forall vs r1 w1 r2 w2 hvs, incl vs vsAll -> (exists e, w1 = wd ++ e) ->
  gv r1 w1 vs = (r2, w2, hvs) -> spawn_inv base c r1 w1 r2 w2.
Proof.
  induction vs as [|[vn fs] vs IH]; intros r1 w1 r2 w2 hvs Hincl Hw1 Hgv.
  - rewrite Hvnil in Hgv. injection Hgv as <- <- _. apply spawn_inv_refl.
  - rewrite Hvcons in Hgv.
    destruct (gf r1 w1 vn fs) as [[rk wk] hk] eqn:Hf1.
    destruct (gv rk wk vs) as [[r3 w3] hs3] eqn:Hg. injection Hgv as <- <- _.
    pose proof (Hf vn fs r1 w1 rk wk hk (Hincl _ (or_introl eq_refl)) Hw1 Hf1) as Hinv.
    apply spawn_inv_trans with rk wk; [exact Hinv|].
    apply (IH rk wk r3 w3 hs3); [intros x Hx; apply Hincl; right; exact Hx | | exact Hg].
    destruct Hw1 as [e1 ->]. destruct Hinv as [[ek ->] _]. exists (e1 ++ ek). rewrite app_assoc. reflexivity.
Qed.


Lemma nth_error_last (l : world) x : nth_error (l ++ [x]) (length l) = Some x.
Proof. induction l as [|y l IH]; simpl; [reflexivity | exact IH]. Qed.

Lemma spawn_entity_inv b c c' r w sd :
  (forall t v, sd = Some (t, v) -> In t r) ->
  ctx_within b c c' (length w) (w ++ [{| path := ctx_path c'; generation := generation_default;
        parent := ctx_parent c'; dep := ctx_dep c'; scalar := sd |}]) ->
  spawn_inv b c r w r (w ++ [{| path := ctx_path c'; generation := generation_default;
        parent := ctx_parent c'; dep := ctx_dep c'; scalar := sd |}]).
Proof.
  intros Hsd [[s Hp] [Hpar Hdep]].
  split; [eexists; reflexivity|]. split; [apply incl_refl|]. split; [auto|].
  intros i n Hi Hn. rewrite nth_error_app2 in Hn by exact Hi.
  destruct (i - length w) as [|k] eqn:E; [|destruct k; discriminate].
  injection Hn as <-. assert (i = length w) by lia. subst i.
  split; [reflexivity|]. split; [exists s; exact Hp|]. split; [exact Hsd|].
  split; [exact Hpar | exact Hdep].
Qed.

Lemma spawn_inv_register b c r w t : spawn_inv b c r w (register r t) w.
Proof.
  split; [exists []; rewrite app_nil_r; reflexivity|]. split; [apply register_incl|].
  split; [apply register_NoDup|].
  intros i n Hi Hn. assert (i < length w) by (apply nth_error_Some; congruence). lia.
Qed.

Lemma spawn_world_inv f : forall r w c r' w' h,
  spawn_world r w c f = (r', w', h) -> spawn_inv (length w) c r w r' w'.
Proof.
  induction f as [t d | fs IHfs | dn vs IHvs] using field_ty_ind'; intros r w c r' w' h Hsp;
    cbn [spawn_world] in Hsp; unfold spawn_entity in Hsp; cbn beta iota zeta in Hsp.
  - injection Hsp as <- <- _.
    apply spawn_inv_trans with (register r t) w; [apply spawn_inv_register|].
    apply spawn_entity_inv; [|apply ctx_within_refl].
    intros t' v' H. injection H as <- _. apply register_In.
  - match type of Hsp with context [?g r ?w1 fs] =>
      destruct (g r w1 fs) as [[r2 w2] hs] eqn:Hgo;
      injection Hsp as <- <- _;
      apply spawn_inv_trans with r w1;
      [ apply spawn_entity_inv; [intros ? ? H; discriminate | apply ctx_within_refl]
      | apply (spawn_loop_inv g (fun k => join c [k] (Some (length w))) (length w) c w1
                 (fun _ _ => eq_refl) (fun _ _ _ _ _ => eq_refl)) with (fs := fs) (hs := hs);
        [| | exact IHfs | exists []; rewrite app_nil_r; reflexivity | exact Hgo] ]
    end.
    + intros k i w' Hi _. split; [exists [k]; reflexivity|]. split.
      * right. exists (length w). rewrite length_app in Hi. simpl in Hi. split; [lia | reflexivity].
      * right. left. reflexivity.
    + rewrite length_app. lia.
  - match type of Hsp with context [?gv ?r1 ?w1 vs] =>
      destruct (gv r1 w1 vs) as [[r2 w2] hvs] eqn:Hgv;
      injection Hsp as <- <- _;
      apply spawn_inv_trans with r1 w1;
      [ | eapply (spawn_variants_inv gv _ (length w) c w1 vs (fun _ _ => eq_refl)
                    (fun _ _ _ _ _ => eq_refl));
          [ | apply incl_refl | exists []; rewrite app_nil_r; reflexivity | exact Hgv] ]
    end.
    + eapply spawn_inv_trans; cycle 1.
      { apply spawn_entity_inv.
        - intros t v H. injection H as <- _. apply register_In.
        - split; [exists ["discrim"%string]; reflexivity|]. split.
          + right. exists (length w). rewrite length_app. simpl. split; [lia | reflexivity].
          + right. left. reflexivity. }
      apply spawn_inv_trans with r (w ++ [{| path := ctx_path c; generation := generation_default;
        parent := ctx_parent c; dep := ctx_dep c; scalar := None |}]).
      * apply spawn_entity_inv; [intros ? ? H; discriminate | apply ctx_within_refl].
      * apply spawn_inv_register.
    + intros vn fs r1' w1' r2' w2' hs' Hin Hw1' Hgf.
      eapply (spawn_loop_inv (fun r w fs => _ r w vn fs) _ (length w) c _
                (fun _ _ => eq_refl) (fun _ _ _ _ _ => eq_refl)); [ | | | exact Hw1' | exact Hgf].
      * intros k i w' Hi [e ->]. split; [exists [vn; k]; reflexivity|]. split.
        -- right. exists (length w). rewrite !length_app in Hi. simpl in Hi. split; [lia | reflexivity].
        -- right. right. do 6 eexists. split; [reflexivity|].
           split; [rewrite !length_app in *; simpl in *; lia|].
           split; [apply nth_error_prefix; apply nth_error_last|].
           split; [reflexivity|]. apply (in_map fst) in Hin. exact Hin.
      * rewrite !length_app. simpl. lia.
      * rewrite Forall_forall in IHvs. exact (IHvs (vn, fs) Hin).
Qed.

Lemma schema_paths_struct fs :
  schema_paths (FStruct fs) =
  [] :: concat (map (fun kf => map (fun s => fst kf :: s) (schema_paths (snd kf))) fs).
Proof.
  cbn [schema_paths]. f_equal.
  induction fs as [|[k ft] fs IH]; simpl; [reflexivity | rewrite IH; reflexivity].
Qed.

Lemma schema_paths_enum dn vs :
  schema_paths (FEnum dn vs) =
  [] :: ["discrim"%string] ::
  concat (map (fun v => concat (map (fun kf => map (fun s => fst v :: fst kf :: s)
                                                  (schema_paths (snd kf))) (snd v))) vs).
Proof.
  cbn [schema_paths]. do 2 f_equal.
  induction vs as [|[vn fs] vs IH]; simpl; [reflexivity|]. rewrite IH. f_equal.
  induction fs as [|[k ft] fs IHf]; simpl; [reflexivity | rewrite IHf; reflexivity].
Qed.

Lemma schema_ok_struct fs :
  schema_ok (FStruct fs) = nodupb (map fst fs) && forallb (fun kf => schema_ok (snd kf)) fs.
Proof.
  cbn [schema_ok]. f_equal.
  induction fs as [|[k ft] fs IH]; simpl; [reflexivity | rewrite IH; reflexivity].
Qed.

Lemma schema_ok_enum dn vs :
  schema_ok (FEnum dn vs) =
  nodupb (map fst vs) &&
  forallb (fun v => nodupb (map fst (snd v)) && forallb (fun kf => schema_ok (snd kf)) (snd v)) vs.
Proof.
  cbn [schema_ok]. f_equal.
  induction vs as [|[vn fs] vs IH]; simpl; [reflexivity|]. rewrite IH. do 2 f_equal.
  induction fs as [|[k ft] fs IHf]; simpl; [reflexivity | rewrite IHf; reflexivity].
Qed.

Lemma nodupb_NoDup ks : nodupb ks = true -> NoDup ks.
Proof.
  induction ks as [|k ks IH]; simpl; intros H; [constructor|].
  apply andb_prop in H as [Hn H]. constructor; [|exact (IH H)].
  intros Hin. apply negb_true_iff in Hn.
  assert (Hx : existsb (String.eqb k) ks = true)
    by (apply existsb_exists; exists k; split; [exact Hin | apply String.eqb_refl]).
  congruence.
Qed.

Lemma NoDup_map_inj {A B} (f : A -> B) (l : list A) :
  (forall x y, f x = f y -> x = y) -> NoDup l -> NoDup (map f l).
Proof. intros Hf. apply NoDup_map_NoDup_ForallPairs. intros x y _ _. apply Hf. Qed.

Lemma app_eq_same_length (a b q q' : list string) : length a = length b -> a ++ q = b ++ q' -> a = b.
Proof.
  revert b. induction a as [|x a IH]; intros [|y b] Hl He; simpl in *; try discriminate; [reflexivity|].
  injection He as -> He. injection Hl as Hl. f_equal. exact (IH b Hl He).
Qed.

Lemma NoDup_concat_keyed {A} (key : A -> list string) (blk : A -> list (list string)) (n : nat)
  (xs : list A) :
  NoDup (map key xs) ->
  (forall x, In x xs -> length (key x) = n /\ NoDup (blk x) /\
                        forall p, In p (blk x) -> exists q, p = key x ++ q) ->
  NoDup (concat (map blk xs)).
Proof.
  induction xs as [|x xs IH]; intros Hk Hb; simpl; [constructor|].
  inversion Hk as [|? ? Hnin Hk']; subst.
  apply NoDup_app.
  - apply (Hb x (or_introl eq_refl)).
  - apply IH; [exact Hk' | intros y Hy; apply Hb; right; exact Hy].
  - intros p Hp Hp2. apply in_concat in Hp2 as [l [Hl Hpl]]. apply in_map_iff in Hl as [y [<- Hy]].
    destruct (Hb x (or_introl eq_refl)) as [Hlx [_ Hx]].
    destruct (Hb y (or_intror Hy)) as [Hly [_ Hyb]].
    destruct (Hx p Hp) as [q ->]. destruct (Hyb _ Hpl) as [q' Hq'].
    apply Hnin. rewrite (app_eq_same_length _ _ _ _ (eq_trans Hlx (eq_sym Hly)) Hq').
    apply in_map. exact Hy.
Qed.

Lemma schema_paths_NoDup f : schema_ok f = true -> NoDup (schema_paths f).
Proof.
  induction f as [t d | fs IHfs | dn vs IHvs] using field_ty_ind'; intros Hok.
  - constructor; [intros [] | constructor].
  - rewrite schema_ok_struct in Hok. apply andb_prop in Hok as [Hk Hall].
    rewrite forallb_forall in Hall. rewrite Forall_forall in IHfs.
    rewrite schema_paths_struct. constructor.
    + intros Hin. apply in_concat in Hin as [l [Hl Hin]]. apply in_map_iff in Hl as [kf [<- _]].
      apply in_map_iff in Hin as [s [Hs _]]. discriminate.
    + apply (NoDup_concat_keyed (fun kf => [fst kf]) _ 1).
      * rewrite <- (map_map fst (fun k => [k])). apply NoDup_map_inj; [congruence | exact (nodupb_NoDup _ Hk)].
      * intros kf Hkf. split; [reflexivity|]. split.
        -- apply NoDup_map_inj; [congruence | exact (IHfs kf Hkf (Hall kf Hkf))].
        -- intros p Hp. apply in_map_iff in Hp as [s [<- _]]. exists s. reflexivity.
  - rewrite schema_ok_enum in Hok. apply andb_prop in Hok as [Hk Hall].
    rewrite forallb_forall in Hall. rewrite Forall_forall in IHvs.
    assert (Hshape : forall p, In p (concat (map (fun v => concat (map (fun kf =>
                map (fun s => fst v :: fst kf :: s) (schema_paths (snd kf))) (snd v))) vs)) ->
              exists a b q, p = a :: b :: q).
    { intros p Hp. apply in_concat in Hp as [l [Hl Hp]]. apply in_map_iff in Hl as [v [<- _]].
      apply in_concat in Hp as [l [Hl Hp]]. apply in_map_iff in Hl as [kf [<- _]].
      apply in_map_iff in Hp as [s [<- _]]. eexists _, _, _. reflexivity. }
    rewrite schema_paths_enum. constructor; [|constructor].
    + intros [Hin | Hin]; [discriminate|]. destruct (Hshape _ Hin) as [a [b [q Hq]]]. discriminate.
    + intros Hin. destruct (Hshape _ Hin) as [a [b [q Hq]]]. discriminate.
    + apply (NoDup_concat_keyed (fun v => [fst v]) _ 1).
      * rewrite <- (map_map fst (fun k => [k])). apply NoDup_map_inj; [congruence | exact (nodupb_NoDup _ Hk)].
      * intros v Hv. split; [reflexivity|].
        destruct (andb_prop _ _ (Hall v Hv)) as [Hkv Hallv]. rewrite forallb_forall in Hallv.
        pose proof (IHvs v Hv) as IHv. rewrite Forall_forall in IHv. split.
        -- apply (NoDup_concat_keyed (fun kf => [fst v; fst kf]) _ 2).
           ++ rewrite <- (map_map fst (fun k => [fst v; k])).
              apply NoDup_map_inj; [congruence | exact (nodupb_NoDup _ Hkv)].
           ++ intros kf Hkf. split; [reflexivity|]. split.
              ** apply NoDup_map_inj; [congruence | exact (IHv kf Hkf (Hallv kf Hkf))].
              ** intros p Hp. apply in_map_iff in Hp as [s [<- _]]. exists s. reflexivity.
        -- intros p Hp. apply in_concat in Hp as [l [Hl Hp]]. apply in_map_iff in Hl as [kf [<- _]].
           apply in_map_iff in Hp as [s [<- _]]. exists (fst kf :: s). reflexivity.
Qed.

Lemma spawn_loop_paths
  (go : registry -> world -> list (string * field_ty) -> registry * world * list handle)
  (ctxk : string -> spawn_ctx) (p : list string) (pre : string -> list string)
  (Hnil : forall r w, go r w [] = (r, w, []))
  (Hcons : forall r w k ft fs, go r w ((k, ft) :: fs) =
     let '(r, w, h) := spawn_world r w (ctxk k) ft in
     let '(r, w, hs) := go r w fs in (r, w, h :: hs))
  (Hctx : forall k, ctx_path (ctxk k) = p ++ pre k) fs
  (HF : Forall (fun kf => forall r w c r' w' h, spawn_world r w c (snd kf) = (r', w', h) ->
          exists ext, w' = w ++ ext /\ map path ext = map (app (ctx_path c)) (schema_paths (snd kf))) fs) :
  forall r1 w1 r2 w2 hs, go r1 w1 fs = (r2, w2, hs) ->
  exists ext, w2 = w1 ++ ext /\
    map path ext = map (app p) (concat (map (fun kf => map (app (pre (fst kf))) (schema_paths (snd kf))) fs)).
Proof.
  induction HF as [|[k ft] fs Hk HF IH]; intros r1 w1 r2 w2 hs Hgo.
  - rewrite Hnil in Hgo. injection Hgo as <- <- _. exists []. rewrite app_nil_r. split; reflexivity.
  - rewrite Hcons in Hgo.
    destruct (spawn_world r1 w1 (ctxk k) ft) as [[rk wk] hk] eqn:Hs.
    destruct (go rk wk fs) as [[r3 w3] hs3] eqn:Hg. injection Hgo as <- <- _.
    destruct (Hk _ _ _ _ _ _ Hs) as [ek [-> Hek]]. destruct (IH _ _ _ _ _ Hg) as [e3 [-> He3]].
    exists (ek ++ e3). split; [rewrite app_assoc; reflexivity|].
    cbn [map concat fst snd]. rewrite !map_app, Hek, He3, Hctx, map_map. f_equal.
    apply map_ext. intros s. rewrite app_assoc. reflexivity.
Qed.

Lemma spawn_variants_paths
  (gv : registry -> world -> list (string * list (string * field_ty)) ->
        registry * world * list (string * list handle))
  (gf : registry -> world -> string -> list (string * field_ty) -> registry * world * list handle)
  (p : list string) (vsAll : list (string * list (string * field_ty)))
  (Hvnil : forall r w, gv r w [] = (r, w, []))
  (Hvcons : forall r w vn fs vs, gv r w ((vn, fs) :: vs) =
     let '(r, w, hs) := gf r w vn fs in
     let '(r, w, hvs) := gv r w vs in (r, w, (vn, hs) :: hvs))
  (Hf : forall vn fs r1 w1 r2 w2 hs, In (vn, fs) vsAll -> gf r1 w1 vn fs = (r2, w2, hs) ->
          exists ext, w2 = w1 ++ ext /\
            map path ext = map (app p) (concat (map (fun kf => map (app [vn; fst kf])
                                                   (schema_paths (snd kf))) fs))) :
  forall vs r1 w1 r2 w2 hvs, incl vs vsAll -> gv r1 w1 vs = (r2, w2, hvs) ->
  exists ext, w2 = w1 ++ ext /\
    map path ext = map (app p) (concat (map (fun v => concat (map (fun kf =>
                     map (app [fst v; fst kf]) (schema_paths (snd kf))) (snd v))) vs)).
Proof.
  induction vs as [|[vn fs] vs IH]; intros r1 w1 r2 w2 hvs Hincl Hgv.
  - rewrite Hvnil in Hgv. injection Hgv as <- <- _. exists []. rewrite app_nil_r. split; reflexivity.
  - rewrite Hvcons in Hgv.
    destruct (gf r1 w1 vn fs) as [[rk wk] hk] eqn:Hf1.
    destruct (gv rk wk vs) as [[r3 w3] hs3] eqn:Hg. injection Hgv as <- <- _.
    destruct (Hf vn fs r1 w1 rk wk hk (Hincl _ (or_introl eq_refl)) Hf1) as [ek [-> Hek]].
    destruct (IH rk _ r3 w3 hs3 (fun x Hx => Hincl x (or_intror Hx)) Hg) as [e3 [-> He3]].
    exists (ek ++ e3). split; [rewrite app_assoc; reflexivity|].
    cbn [map concat fst snd]. rewrite !map_app, Hek, He3. reflexivity.
Qed.

Lemma spawn_world_paths_eq f : forall r w c r' w' h,
  spawn_world r w c f = (r', w', h) ->
  exists ext, w' = w ++ ext /\ map path ext = map (app (ctx_path c)) (schema_paths f).
Proof.
  induction f as [t d | fs IHfs | dn vs IHvs] using field_ty_ind'; intros r w c r' w' h Hsp;
    cbn [spawn_world] in Hsp; unfold spawn_entity in Hsp; cbn beta iota zeta in Hsp.
  - injection Hsp as <- <- _. eexists. split; [reflexivity|]. simpl. rewrite app_nil_r. reflexivity.
  - match type of Hsp with context [?g r ?w1 fs] =>
      destruct (g r w1 fs) as [[r2 w2] hs] eqn:Hgo;
      injection Hsp as <- <- _;
      destruct (spawn_loop_paths g (fun k => join c [k] (Some (length w))) (ctx_path c)
                  (fun k => [k]) (fun _ _ => eq_refl) (fun _ _ _ _ _ => eq_refl)
                  (fun _ => eq_refl) fs IHfs _ _ _ _ _ Hgo) as [e [-> He]]
    end.
    eexists. split; [rewrite <- app_assoc; reflexivity|].
    rewrite schema_paths_struct. cbn [map app]. rewrite He, app_nil_r. reflexivity.
  - match type of Hsp with context [?gv ?r1 ?w1 vs] =>
      destruct (gv r1 w1 vs) as [[r2 w2] hvs] eqn:Hgv;
      injection Hsp as <- <- _;
      edestruct (spawn_variants_paths gv _ (ctx_path c) vs (fun _ _ => eq_refl)
                  (fun _ _ _ _ _ => eq_refl)) as [e [-> He]];
      [ | apply incl_refl | exact Hgv | ]
    end.
    + intros vn fs r1' w1' r2' w2' hs' Hin Hgf.
      rewrite Forall_forall in IHvs.
      match type of Hgf with ?gf _ _ _ _ = _ =>
        exact (spawn_loop_paths (fun r w fs => gf r w vn fs) _ (ctx_path c) (fun k => [vn; k])
                 (fun _ _ => eq_refl) (fun _ _ _ _ _ => eq_refl) (fun _ => eq_refl)
                 fs (IHvs (vn, fs) Hin) _ _ _ _ _ Hgf)
      end.
    + eexists. split; [rewrite <- !app_assoc; reflexivity|].
      rewrite schema_paths_enum. cbn [map app]. rewrite He, app_nil_r. reflexivity.
Qed.

Lemma skipn_length_app (w e : world) : skipn (length w) (w ++ e) = e.
Proof. induction w as [|x w IH]; simpl; [reflexivity | exact IH]. Qed.

End SpawnInvariants.

(** X14: [spawn_world] leaves the entities already in the world untouched
    and only appends new ones, each with [FieldGeneration::default()]. *)
Theorem spawn_world_appends r w c f r' w' h :
  spawn_world r w c f = (r', w', h) ->
  (exists ext, w' = w ++ ext) /\
  forall i n, length w <= i -> nth_error w' i = Some n -> generation n = generation_default.
Proof.
  intros Hsp. destruct (spawn_world_inv f r w c r' w' h Hsp) as [Hext [_ [_ Hn]]].
  split; [exact Hext|]. intros i n Hi Hni. exact (proj1 (Hn i n Hi Hni)).
Qed.

Lemma spawn_world_appends_witness :
  spawn_world [] [] (root_ctx "ui") Settings
    = (fst (fst example_spawn), snd (fst example_spawn), snd example_spawn) /\
  (exists ext, snd (fst example_spawn) = [] ++ ext) /\
  forall i n, length (@nil node) <= i -> nth_error (snd (fst example_spawn)) i = Some n ->
    generation n = generation_default.
Proof.
  assert (E : spawn_world [] [] (root_ctx "ui") Settings
                = (fst (fst example_spawn), snd (fst example_spawn), snd example_spawn))
    by reflexivity.
  split; [exact E | exact (spawn_world_appends _ _ _ _ _ _ _ E)].
Defined.

(** X15: every type of a [ScalarData] that [spawn_world] spawns is in the
    [Serde] manager's registry afterwards; the registry only grows and
    stays free of duplicates. *)
Theorem spawn_world_registers_types r w c f r' w' h :
  spawn_world r w c f = (r', w', h) ->
  incl r r' /\ (NoDup r -> NoDup r') /\
  forall i n t v, length w <= i -> nth_error w' i = Some n -> scalar n = Some (t, v) -> In t r'.
Proof.
  intros Hsp. destruct (spawn_world_inv f r w c r' w' h Hsp) as [_ [Hincl [Hnd Hn]]].
  split; [exact Hincl|]. split; [exact Hnd|].
  intros i n t v Hi Hni Hs. exact (proj1 (proj2 (proj2 (Hn i n Hi Hni))) t v Hs).
Qed.

Lemma spawn_world_registers_types_witness :
  spawn_world [] [] (root_ctx "ui") Settings
    = (fst (fst example_spawn), snd (fst example_spawn), snd example_spawn) /\
  incl (@nil scalar_ty) (fst (fst example_spawn)) /\ (NoDup (@nil scalar_ty) -> NoDup (fst (fst example_spawn))) /\
  forall i n t v, length (@nil node) <= i -> nth_error (snd (fst example_spawn)) i = Some n ->
    scalar n = Some (t, v) -> In t (fst (fst example_spawn)).
Proof.
  assert (E : spawn_world [] [] (root_ctx "ui") Settings
                = (fst (fst example_spawn), snd (fst example_spawn), snd example_spawn))
    by reflexivity.
  split; [exact E | exact (spawn_world_registers_types _ _ _ _ _ _ _ E)].
Defined.

(** X16: the parent ([ChildNodeOf]) of every entity [spawn_world] spawns is
    either the parent of the context (for the first one) or an entity of
    the same spawn with a smaller index: the new entities form a forest
    hung below the context's parent, each parent spawned before its
    children. *)
Theorem spawn_world_parent_before_child r w c f r' w' h :
  spawn_world r w c f = (r', w', h) ->
  forall i n, length w <= i -> nth_error w' i = Some n ->
    parent n = ctx_parent c \/ exists j, length w <= j < i /\ parent n = Some j.
Proof.
  intros Hsp i n Hi Hni. destruct (spawn_world_inv f r w c r' w' h Hsp) as [_ [_ [_ Hn]]].
  exact (proj1 (proj2 (proj2 (proj2 (Hn i n Hi Hni))))).
Qed.

Lemma spawn_world_parent_before_child_witness :
  spawn_world [] [] (root_ctx "ui") Settings
    = (fst (fst example_spawn), snd (fst example_spawn), snd example_spawn) /\
  forall i n, length (@nil node) <= i -> nth_error (snd (fst example_spawn)) i = Some n ->
    parent n = ctx_parent (root_ctx "ui") \/ exists j, length (@nil node) <= j < i /\ parent n = Some j.
Proof.
  assert (E : spawn_world [] [] (root_ctx "ui") Settings
                = (fst (fst example_spawn), snd (fst example_spawn), snd example_spawn))
    by reflexivity.
  split; [exact E | exact (spawn_world_parent_before_child _ _ _ _ _ _ _ E)].
Defined.

(** X17: the [ConditionalRelevance] of every entity [spawn_world] spawns is
    the context's own, none, or a dependency on an entity of the same spawn
    spawned before it that holds an enum discriminant wrapper whose type
    lists the required variant. *)
Theorem spawn_world_dependency_on_discrim r w c f r' w' h :
  spawn_world r w c f = (r', w', h) ->
  forall i n, length w <= i -> nth_error w' i = Some n ->
    dep n = ctx_dep c \/ dep n = None \/ dep_on_discrim (length w) i w' (dep n).
Proof.
  intros Hsp i n Hi Hni. destruct (spawn_world_inv f r w c r' w' h Hsp) as [_ [_ [_ Hn]]].
  exact (proj2 (proj2 (proj2 (proj2 (Hn i n Hi Hni))))).
Qed.

Lemma spawn_world_dependency_on_discrim_witness :
  spawn_world [] [] (root_ctx "ui") Settings
    = (fst (fst example_spawn), snd (fst example_spawn), snd example_spawn) /\
  forall i n, length (@nil node) <= i -> nth_error (snd (fst example_spawn)) i = Some n ->
    dep n = ctx_dep (root_ctx "ui") \/ dep n = None \/
    dep_on_discrim (length (@nil node)) i (snd (fst example_spawn)) (dep n).
Proof.
  assert (E : spawn_world [] [] (root_ctx "ui") Settings
                = (fst (fst example_spawn), snd (fst example_spawn), snd example_spawn))
    by reflexivity.
  split; [exact E | exact (spawn_world_dependency_on_discrim _ _ _ _ _ _ _ E)].
Defined.

(** X18: the paths of the entities [spawn_world] appends are, in spawn
    order, the context path followed by the hierarchy keys of
    [schema_paths]: a struct field adds its key, an enum adds ["discrim"]
    for its discriminant and [variant; key] for each variant field. *)
Theorem spawn_world_paths r w c f r' w' h :
  spawn_world r w c f = (r', w', h) ->
  map path (skipn (length w) w') = map (app (ctx_path c)) (schema_paths f).
Proof.
  intros Hsp. destruct (spawn_world_paths_eq f r w c r' w' h Hsp) as [ext [-> Hp]].
  rewrite skipn_length_app. exact Hp.
Qed.

Lemma spawn_world_paths_witness :
  spawn_world [] [] (root_ctx "ui") Settings
    = (fst (fst example_spawn), snd (fst example_spawn), snd example_spawn) /\
  map path (skipn (length (@nil node)) (snd (fst example_spawn)))
    = map (app ["ui"%string]) (schema_paths Settings).
Proof.
  assert (E : spawn_world [] [] (root_ctx "ui") Settings
                = (fst (fst example_spawn), snd (fst example_spawn), snd example_spawn))
    by reflexivity.
  split; [exact E | exact (spawn_world_paths _ _ _ _ _ _ _ E)].
Defined.

(** X19: for a schema that [#[derive(Config)]] accepts ([schema_ok]), the
    entities one [spawn_world] appends have pairwise distinct paths. *)
Theorem spawn_world_paths_unique r w c f r' w' h :
  schema_ok f = true -> spawn_world r w c f = (r', w', h) ->
  NoDup (map path (skipn (length w) w')).
Proof.
  intros Hok Hsp. destruct (spawn_world_paths_eq f r w c r' w' h Hsp) as [ext [-> Hp]].
  rewrite skipn_length_app, Hp. apply NoDup_map_inj; [apply app_inv_head | exact (schema_paths_NoDup f Hok)].
Qed.

Lemma spawn_world_paths_unique_witness :
  schema_ok Settings = true /\
  spawn_world [] [] (root_ctx "ui") Settings
    = (fst (fst example_spawn), snd (fst example_spawn), snd example_spawn) /\
  NoDup (map path (skipn (length (@nil node)) (snd (fst example_spawn)))).
Proof.
  assert (Hok : schema_ok Settings = true) by reflexivity.
  assert (E : spawn_world [] [] (root_ctx "ui") Settings
                = (fst (fst example_spawn), snd (fst example_spawn), snd example_spawn))
    by reflexivity.
  split; [exact Hok|]. split; [exact E | exact (spawn_world_paths_unique _ _ _ _ _ _ _ Hok E)].
Defined.

(* ------------------------------------------------------------------ *)
(** ** Change propagation under the code's query *)

Section EnumFreeChange.











End EnumFreeChange.


